(** * ExpiredStorage: a shallow embedding of src/dist/expired_storage.js

    The backing store is the object passed to the constructor
    (localStorage, sessionStorage or the custom test storage of
    src/unnamed/part_000).  It is modelled as an association list of
    string keys to string values in insertion order (the property order a
    JS object or a Storage object enumerates non-index keys in).  Values
    written to it are strings, as localStorage coerces them with String().

    The overridable clock [getTimestamp] is the parameter [now] of every
    operation.  Timestamps are whole seconds ([Z]: [getTimestamp] floors
    the epoch time).  TTLs are integers ([Z]) in most of the development;
    [setItem_num] and [updateExpiration_num] take a TTL that is any JS
    number with a finite decimal expansion ([num]). *)

From Stdlib Require Import String Ascii List ZArith Bool Lia.
From Stdlib Require Import DecimalN DecimalPos HexadecimalN.
Import ListNotations.
Open Scope string_scope.

(* ------------------------------------------------------------------ *)
(** ** JS number <-> string *)

(** Decimal digits of a [Decimal.uint], most significant first. *)
Fixpoint uint_to_string (d : Decimal.uint) : string :=
  match d with
  | Decimal.Nil => EmptyString
  | Decimal.D0 d => String "0" (uint_to_string d)
  | Decimal.D1 d => String "1" (uint_to_string d)
  | Decimal.D2 d => String "2" (uint_to_string d)
  | Decimal.D3 d => String "3" (uint_to_string d)
  | Decimal.D4 d => String "4" (uint_to_string d)
  | Decimal.D5 d => String "5" (uint_to_string d)
  | Decimal.D6 d => String "6" (uint_to_string d)
  | Decimal.D7 d => String "7" (uint_to_string d)
  | Decimal.D8 d => String "8" (uint_to_string d)
  | Decimal.D9 d => String "9" (uint_to_string d)
  end.

(** [String(n)] for an integer-valued JS number (no exponent form: the
    values here are epoch seconds, far below 1e21). *)
Definition js_number_to_string (z : Z) : string :=
  match z with
  | Z0 => "0"
  | Zpos p => uint_to_string (Pos.to_uint p)
  | Zneg p => String "-" (uint_to_string (Pos.to_uint p))
  end.

(** One decimal digit, as the constructor that prepends it. *)
Definition dec_digit (c : ascii) : option (Decimal.uint -> Decimal.uint) :=
  match c with
  | "0"%char => Some Decimal.D0 | "1"%char => Some Decimal.D1
  | "2"%char => Some Decimal.D2 | "3"%char => Some Decimal.D3
  | "4"%char => Some Decimal.D4 | "5"%char => Some Decimal.D5
  | "6"%char => Some Decimal.D6 | "7"%char => Some Decimal.D7
  | "8"%char => Some Decimal.D8 | "9"%char => Some Decimal.D9
  | _ => None
  end.

(** Longest prefix of decimal digits, with the remaining text. *)
Fixpoint dec_prefix (s : string) : Decimal.uint * string :=
  match s with
  | String c r =>
      match dec_digit c with
      | Some f => let (u, r') := dec_prefix r in (f u, r')
      | None => (Decimal.Nil, s)
      end
  | EmptyString => (Decimal.Nil, EmptyString)
  end.

Definition hex_digit (c : ascii) : option (Hexadecimal.uint -> Hexadecimal.uint) :=
  match c with
  | "0"%char => Some Hexadecimal.D0 | "1"%char => Some Hexadecimal.D1
  | "2"%char => Some Hexadecimal.D2 | "3"%char => Some Hexadecimal.D3
  | "4"%char => Some Hexadecimal.D4 | "5"%char => Some Hexadecimal.D5
  | "6"%char => Some Hexadecimal.D6 | "7"%char => Some Hexadecimal.D7
  | "8"%char => Some Hexadecimal.D8 | "9"%char => Some Hexadecimal.D9
  | "a"%char | "A"%char => Some Hexadecimal.Da
  | "b"%char | "B"%char => Some Hexadecimal.Db
  | "c"%char | "C"%char => Some Hexadecimal.Dc
  | "d"%char | "D"%char => Some Hexadecimal.Dd
  | "e"%char | "E"%char => Some Hexadecimal.De
  | "f"%char | "F"%char => Some Hexadecimal.Df
  | _ => None
  end.

Fixpoint hex_prefix (s : string) : Hexadecimal.uint :=
  match s with
  | String c r =>
      match hex_digit c with
      | Some f => f (hex_prefix r)
      | None => Hexadecimal.Nil
      end
  | EmptyString => Hexadecimal.Nil
  end.

(** StrWhiteSpaceChar restricted to 8-bit code units: TAB, LF, VT, FF, CR,
    SPACE and NO-BREAK SPACE. *)
Definition js_is_space (c : ascii) : bool :=
  let n := nat_of_ascii c in
  (Nat.eqb n 9 || Nat.eqb n 10 || Nat.eqb n 11 || Nat.eqb n 12 ||
   Nat.eqb n 13 || Nat.eqb n 32 || Nat.eqb n 160)%bool.

Fixpoint trim_start (s : string) : string :=
  match s with
  | String c r => if js_is_space c then trim_start r else s
  | EmptyString => EmptyString
  end.

(** [parseInt(s)] with no radix argument; [None] is NaN.  Leading white
    space is skipped, one sign is read, a [0x]/[0X] prefix selects radix
    16, and the longest prefix of digits is converted. *)
Definition parseInt (s : string) : option Z :=
  let s1 := trim_start s in
  let '(sign, s2) :=
    match s1 with
    | String "-"%char r => ((-1)%Z, r)
    | String "+"%char r => (1%Z, r)
    | _ => (1%Z, s1)
    end in
  match s2 with
  | String "0"%char (String x r) =>
      if (Ascii.eqb x "x"%char || Ascii.eqb x "X"%char)%bool then
        match hex_prefix r with
        | Hexadecimal.Nil => None
        | h => Some (sign * Z.of_N (N.of_hex_uint h))%Z
        end
      else
        Some (sign * Z.of_N (N.of_uint (fst (dec_prefix s2))))%Z
  | _ =>
      match fst (dec_prefix s2) with
      | Decimal.Nil => None
      | u => Some (sign * Z.of_N (N.of_uint u))%Z
      end
  end.

(* ------------------------------------------------------------------ *)
(** ** The backing store *)

Definition store := list (string * string).

(** [storage.getItem(key)]: [None] is the [null] a Storage returns. *)
Fixpoint st_get (s : store) (k : string) : option string :=
  match s with
  | [] => None
  | (k', v) :: r => if String.eqb k k' then Some v else st_get r k
  end.

(** [storage.setItem(key, value)]: an existing key keeps its position. *)
Fixpoint st_set (s : store) (k v : string) : store :=
  match s with
  | [] => [(k, v)]
  | (k', v') :: r =>
      if String.eqb k k' then (k, v) :: r else (k', v') :: st_set r k v
  end.

(** [storage.removeItem(key)]: no error when the key is absent. *)
Fixpoint st_remove (s : store) (k : string) : store :=
  match s with
  | [] => []
  | (k', v') :: r => if String.eqb k k' then st_remove r k else (k', v') :: st_remove r k
  end.

(** [storage.keys()] / [Object.keys(storage)]: a snapshot array. *)
Definition st_keys (s : store) : list string := map fst s.

(* ------------------------------------------------------------------ *)
(** ** A state and exception monad over the backing store *)

(** The exceptions the wrapper raises: [setJson] on [undefined]
    ("Cannot set undefined value as JSON!") and JSON.parse's SyntaxError. *)
Inductive exn := UndefinedJson | SyntaxError.

Definition M (A : Type) : Type := store -> (exn + A) * store.

Definition ret {A} (a : A) : M A := fun s => (inr a, s).
Definition bind {A B} (c : M A) (k : A -> M B) : M B :=
  fun s => match c s with
           | (inl e, s') => (inl e, s')
           | (inr a, s') => k a s'
           end.
Definition throw {A} (e : exn) : M A := fun s => (inl e, s).

Declare Scope js_scope.
Notation "x <- c ;; k" := (bind c (fun x => k))
  (at level 61, c at next level, right associativity) : js_scope.
Notation "c ;;; k" := (bind c (fun _ => k))
  (at level 61, right associativity) : js_scope.
Open Scope js_scope.

Definition raw_get (k : string) : M (option string) := fun s => (inr (st_get s k), s).
Definition raw_keys : M (list string) := fun s => (inr (st_keys s), s).

(** [for (i...) callback(keys[i])] over a snapshot, with the closure's
    accumulator made explicit. *)
Fixpoint foldM {A} (cb : A -> string -> M A) (ks : list string) (acc : A) : M A :=
  match ks with
  | [] => ret acc
  | k :: ks' => a <- cb acc k ;; foldM cb ks' a
  end.

(** [s.substr(n)]: the text from position [n] to the end. *)
Fixpoint substr_from (n : nat) (s : string) : string :=
  match n, s with
  | O, _ => s
  | S n', String _ r => substr_from n' r
  | S _, EmptyString => EmptyString
  end.

(** A JS number with a finite decimal expansion: [num_m * 10^-num_k]. *)
Record num := mk_num { num_m : Z; num_k : nat }.

Definition num_of_Z (z : Z) : num := mk_num z 0.

(** [x + y], exact: this is the double sum whenever the exact sum is
    itself a double, as for the operands used below. *)
Definition num_add (x y : num) : num :=
  let k := Nat.max (num_k x) (num_k y) in
  mk_num (num_m x * 10 ^ Z.of_nat (k - num_k x) + num_m y * 10 ^ Z.of_nat (k - num_k y)) k.

(** The same number with no trailing zero among its decimals. *)
Fixpoint num_normalize (m : Z) (k : nat) : num :=
  match k with
  | O => mk_num m O
  | S k' => if (m mod 10 =? 0)%Z then num_normalize (m / 10) k' else mk_num m k
  end.

Fixpoint drop_trailing_zeros (s : string) : string :=
  match s with
  | EmptyString => EmptyString
  | String c r =>
      match drop_trailing_zeros r with
      | EmptyString => if Ascii.eqb c "0"%char then EmptyString else String c EmptyString
      | r' => String c r'
      end
  end.

Fixpoint zeros (n : nat) : string :=
  match n with O => EmptyString | S n' => String "0" (zeros n') end.

(** [String(x)] (Number::toString): [digits] are the significant digits
    of [|x|] and [n] the position of the decimal point relative to them;
    plain notation for [-6 < n <= 21], exponent notation otherwise.  This
    is the text of the double nearest to [x] when [x] has at most 15
    significant digits. *)
Definition num_to_string (x : num) : string :=
  let x' := num_normalize (num_m x) (num_k x) in
  let m := num_m x' in
  let d := uint_to_string (Pos.to_uint (Z.to_pos (Z.abs m))) in
  let digits := drop_trailing_zeros d in
  let k := Z.of_nat (String.length digits) in
  let n := (Z.of_nat (String.length d) - Z.of_nat (num_k x'))%Z in
  let body :=
    if ((k <=? n) && (n <=? 21))%Z%bool then digits ++ zeros (Z.to_nat (n - k))
    else if ((0 <? n) && (n <=? 21))%Z%bool then
      substring 0 (Z.to_nat n) digits ++ "." ++ substr_from (Z.to_nat n) digits
    else if ((-6 <? n) && (n <=? 0))%Z%bool then "0." ++ zeros (Z.to_nat (- n)) ++ digits
    else
      let e := (n - 1)%Z in
      let exp := "e" ++ (if (e <? 0)%Z then "-" else "+") ++ js_number_to_string (Z.abs e) in
      if (k =? 1)%Z then digits ++ exp
      else substring 0 1 digits ++ "." ++ substr_from 1 digits ++ exp in
  if (m =? 0)%Z then "0" else if (m <? 0)%Z then "-" ++ body else body.

(** An integer a double holds exactly, with all the sums and differences
    of such integers computed here: [|z| <= 2^53]. *)
Definition safe_int (z : Z) : bool := (Z.abs z <=? 2 ^ 53)%Z.

(** [storageKey.indexOf(prefix) === 0]. *)
Definition starts_with (pfx s : string) : bool := String.prefix pfx s.

(* ------------------------------------------------------------------ *)
(** ** JS values and the JSON built-ins

    [JSON.stringify] and [JSON.parse] are the host's; they are modelled on
    JS values whose numbers are integers and whose strings are sequences
    of 8-bit code units.  Fractional and exponent number syntax is outside
    this integer model and is not accepted by [json_parse]. *)

Inductive jsval :=
| JUndefined
| JNull
| JBool (b : bool)
| JNumber (z : Z)
| JString (s : string)
| JArray (l : list jsval)
| JObject (props : list (string * jsval)).

Definition dq : ascii := "034"%char.
Definition bsl : ascii := "092"%char.

(** The lower-case hex digit of [n < 16]. *)
Definition hex_char (n : nat) : ascii :=
  ascii_of_nat (if Nat.ltb n 10 then 48 + n else 87 + n).

(** One code unit as QuoteJSONString writes it. *)
Definition json_escape_char (c : ascii) : string :=
  let n := nat_of_ascii c in
  if Nat.eqb n 8 then String bsl "b"
  else if Nat.eqb n 9 then String bsl "t"
  else if Nat.eqb n 10 then String bsl "n"
  else if Nat.eqb n 12 then String bsl "f"
  else if Nat.eqb n 13 then String bsl "r"
  else if Nat.eqb n 34 then String bsl (String dq EmptyString)
  else if Nat.eqb n 92 then String bsl (String bsl EmptyString)
  else if Nat.ltb n 32 then
    String bsl (String "u" (String "0" (String "0"
      (String (hex_char (n / 16)) (String (hex_char (n mod 16)) EmptyString)))))
  else String c EmptyString.

Fixpoint json_escape (s : string) : string :=
  match s with
  | EmptyString => EmptyString
  | String c r => json_escape_char c ++ json_escape r
  end.

(** QuoteJSONString. *)
Definition json_quote (s : string) : string :=
  String dq (json_escape s ++ String dq EmptyString).

(** SerializeJSONProperty; [None] is the [undefined] it yields for
    [undefined].  Array holes of [undefined] print as [null], object
    properties holding [undefined] are left out. *)
Fixpoint json_ser (v : jsval) : option string :=
  match v with
  | JUndefined => None
  | JNull => Some "null"
  | JBool true => Some "true"
  | JBool false => Some "false"
  | JNumber z => Some (js_number_to_string z)
  | JString s => Some (json_quote s)
  | JArray l =>
      Some ("[" ++ String.concat ","
                    (map (fun x => match json_ser x with
                                   | Some t => t
                                   | None => "null"
                                   end) l) ++ "]")
  | JObject ps =>
      Some ("{" ++ String.concat ","
                    (flat_map (fun '(k, x) => match json_ser x with
                                             | Some t => [json_quote k ++ ":" ++ t]
                                             | None => []
                                             end) ps) ++ "}")
  end.

(** [JSON.stringify(v)]. *)
Definition json_stringify (v : jsval) : option string := json_ser v.

(** JSON white space: TAB, LF, CR, SPACE. *)
Definition json_is_space (c : ascii) : bool :=
  let n := nat_of_ascii c in
  (Nat.eqb n 9 || Nat.eqb n 10 || Nat.eqb n 13 || Nat.eqb n 32)%bool.

Fixpoint skip_ws (s : string) : string :=
  match s with
  | String c r => if json_is_space c then skip_ws r else s
  | EmptyString => EmptyString
  end.

Definition hex_val (c : ascii) : option nat :=
  match hex_digit c with
  | Some f => Some (N.to_nat (N.of_hex_uint (f Hexadecimal.Nil)))
  | None => None
  end.

(** The body of a JSON string literal, up to its closing quote. *)
Fixpoint parse_chars (s : string) : option (string * string) :=
  match s with
  | EmptyString => None
  | String c r =>
      if Ascii.eqb c dq then Some (EmptyString, r)
      else if Ascii.eqb c bsl then
        match r with
        | String e r' =>
            let single (d : ascii) :=
              match parse_chars r' with
              | Some (t, r'') => Some (String d t, r'')
              | None => None
              end in
            if Ascii.eqb e dq then single dq
            else if Ascii.eqb e bsl then single bsl
            else if Ascii.eqb e "/"%char then single "/"%char
            else if Ascii.eqb e "b"%char then single (ascii_of_nat 8)
            else if Ascii.eqb e "f"%char then single (ascii_of_nat 12)
            else if Ascii.eqb e "n"%char then single (ascii_of_nat 10)
            else if Ascii.eqb e "r"%char then single (ascii_of_nat 13)
            else if Ascii.eqb e "t"%char then single (ascii_of_nat 9)
            else if Ascii.eqb e "u"%char then
              match r' with
              | String h1 (String h2 (String h3 (String h4 r''))) =>
                  match hex_val h1, hex_val h2, hex_val h3, hex_val h4 with
                  | Some a, Some b, Some c', Some d =>
                      let code := ((a * 16 + b) * 16 + c') * 16 + d in
                      if Nat.ltb code 256 then
                        match parse_chars r'' with
                        | Some (t, r3) => Some (String (ascii_of_nat code) t, r3)
                        | None => None
                        end
                      else None
                  | _, _, _, _ => None
                  end
              | _ => None
              end
            else None
        | EmptyString => None
        end
      else if Nat.ltb (nat_of_ascii c) 32 then None
      else
        match parse_chars r with
        | Some (t, r') => Some (String c t, r')
        | None => None
        end
  end.

(** A JSON number: [-]? ( [0] | [1-9][0-9]* ). *)
Definition parse_number (s : string) : option (jsval * string) :=
  let '(neg, s1) :=
    match s with
    | String "-"%char r => (true, r)
    | _ => (false, s)
    end in
  let digits :=
    match s1 with
    | String "0"%char r => Some (0%N, r)
    | String c _ =>
        match dec_digit c with
        | Some _ => let (u, r) := dec_prefix s1 in Some (N.of_uint u, r)
        | None => None
        end
    | EmptyString => None
    end in
  match digits with
  | Some (n, r) =>
      match r with
      | String c _ =>
          if (Ascii.eqb c "."%char || Ascii.eqb c "e"%char || Ascii.eqb c "E"%char)%bool then None
          else Some (JNumber (if neg then Z.opp (Z.of_N n) else Z.of_N n), r)
      | EmptyString => Some (JNumber (if neg then Z.opp (Z.of_N n) else Z.of_N n), r)
      end
  | None => None
  end.

(** CreateDataProperty on a fresh object: a repeated key keeps its place
    and takes the later value. *)
Fixpoint obj_set (ps : list (string * jsval)) (k : string) (v : jsval)
  : list (string * jsval) :=
  match ps with
  | [] => [(k, v)]
  | (k', v') :: r => if String.eqb k k' then (k, v) :: r else (k', v') :: obj_set r k v
  end.

Definition build_object (ms : list (string * jsval)) : list (string * jsval) :=
  fold_left (fun acc '(k, v) => obj_set acc k v) ms [].

Definition prefix_lit (lit s : string) : option string :=
  if String.prefix lit s then Some (substr_from (String.length lit) s) else None.

Fixpoint parse_value (fuel : nat) (s : string) : option (jsval * string) :=
  match fuel with
  | O => None
  | S f =>
      match skip_ws s with
      | EmptyString => None
      | String c r as s' =>
          if Ascii.eqb c dq then
            match parse_chars r with
            | Some (t, r') => Some (JString t, r')
            | None => None
            end
          else if Ascii.eqb c "["%char then
            match skip_ws r with
            | String c2 r' =>
                if Ascii.eqb c2 "]"%char then Some (JArray [], r')
                else match parse_elements f r with
                     | Some (l, r'') => Some (JArray l, r'')
                     | None => None
                     end
            | EmptyString => None
            end
          else if Ascii.eqb c "{"%char then
            match skip_ws r with
            | String c2 r' =>
                if Ascii.eqb c2 "}"%char then Some (JObject [], r')
                else match parse_members f r with
                     | Some (ms, r'') => Some (JObject (build_object ms), r'')
                     | None => None
                     end
            | EmptyString => None
            end
          else
            match prefix_lit "null" s', prefix_lit "true" s', prefix_lit "false" s' with
            | Some r', _, _ => Some (JNull, r')
            | _, Some r', _ => Some (JBool true, r')
            | _, _, Some r' => Some (JBool false, r')
            | None, None, None => parse_number s'
            end
      end
  end
with parse_elements (fuel : nat) (s : string) : option (list jsval * string) :=
  match fuel with
  | O => None
  | S f =>
      match parse_value f s with
      | Some (v, r) =>
          match skip_ws r with
          | String ","%char r' =>
              match parse_elements f r' with
              | Some (l, r'') => Some (v :: l, r'')
              | None => None
              end
          | String "]"%char r' => Some ([v], r')
          | _ => None
          end
      | None => None
      end
  end
with parse_members (fuel : nat) (s : string)
  : option (list (string * jsval) * string) :=
  match fuel with
  | O => None
  | S f =>
      match skip_ws s with
      | String c r =>
          if Ascii.eqb c dq then
            match parse_chars r with
            | Some (k, r1) =>
                match skip_ws r1 with
                | String ":"%char r2 =>
                    match parse_value f r2 with
                    | Some (v, r3) =>
                        match skip_ws r3 with
                        | String ","%char r4 =>
                            match parse_members f r4 with
                            | Some (ms, r5) => Some ((k, v) :: ms, r5)
                            | None => None
                            end
                        | String "}"%char r4 => Some ([(k, v)], r4)
                        | _ => None
                        end
                    | None => None
                    end
                | _ => None
                end
            | None => None
            end
          else None
      | EmptyString => None
      end
  end.

(** [JSON.parse(text)]; [None] is a SyntaxError. *)
Definition json_parse (text : string) : option jsval :=
  match parse_value (S (String.length text)) text with
  | Some (v, r) =>
      match skip_ws r with
      | EmptyString => Some v
      | _ => None
      end
  | None => None
  end.


(** The characters a JSON value can start with. *)
Definition json_value_start (c : ascii) : bool :=
  (Ascii.eqb c dq || Ascii.eqb c "["%char || Ascii.eqb c "{"%char ||
   Ascii.eqb c "-"%char || Ascii.eqb c "t"%char || Ascii.eqb c "f"%char ||
   Ascii.eqb c "n"%char ||
   match dec_digit c with Some _ => true | None => false end)%bool.

(** A text that is not JSON by its first character: it is empty or white
    space, or its first character after JSON white space starts no value. *)
Definition json_bad_start (text : string) : bool :=
  match skip_ws text with
  | EmptyString => true
  | String c _ => negb (json_value_start c)
  end.

(** The values [JSON.stringify] writes and [JSON.parse] reads back:
    no [undefined] anywhere, and objects with distinct property names
    (as every JS object has). *)
Fixpoint json_ok (v : jsval) : Prop :=
  match v with
  | JUndefined => False
  | JArray l => fold_right (fun x acc => json_ok x /\ acc) True l
  | JObject ps =>
      NoDup (map fst ps) /\ fold_right (fun '(_, x) acc => json_ok x /\ acc) True ps
  | _ => True
  end.

Fixpoint jsize (v : jsval) : nat :=
  match v with
  | JArray l => S (list_sum (map (fun x => S (jsize x)) l))
  | JObject ps => S (list_sum (map (fun '(_, x) => S (jsize x)) ps))
  | _ => 1
  end.

(** [JSON.stringify] on a value that is not [undefined]. *)
Definition ser (v : jsval) : string :=
  match json_ser v with Some t => t | None => "null" end.

Definition ser_member (p : string * jsval) : string :=
  let '(k, x) := p in (json_quote k ++ ":" ++ ser x)%string.


(** A text that may follow a JSON number: no digit, no fraction or
    exponent mark. *)
Definition json_stop (rest : string) : bool :=
  match rest with
  | EmptyString => true
  | String c _ =>
      match dec_digit c with
      | Some _ => false
      | None => negb (Ascii.eqb c "."%char || Ascii.eqb c "e"%char || Ascii.eqb c "E"%char)
      end
  end.

(** Induction over JS values through their arrays and objects. *)
Fixpoint jsval_ind2 (P : jsval -> Prop)
  (HU : P JUndefined) (HN : P JNull) (HB : forall b, P (JBool b))
  (HZ : forall z, P (JNumber z)) (HS : forall s, P (JString s))
  (HA : forall l, Forall P l -> P (JArray l))
  (HO : forall ps, Forall (fun p => P (snd p)) ps -> P (JObject ps))
  (v : jsval) {struct v} : P v :=
  match v with
  | JUndefined => HU
  | JNull => HN
  | JBool b => HB b
  | JNumber z => HZ z
  | JString s => HS s
  | JArray l =>
      HA l ((fix go (l : list jsval) : Forall P l :=
               match l with
               | [] => Forall_nil P
               | x :: r => Forall_cons x (jsval_ind2 P HU HN HB HZ HS HA HO x) (go r)
               end) l)
  | JObject ps =>
      HO ps ((fix go (ps : list (string * jsval)) : Forall (fun p => P (snd p)) ps :=
                match ps with
                | [] => Forall_nil _
                | (k, x) :: r =>
                    Forall_cons (P := fun p => P (snd p)) (k, x)
                      (jsval_ind2 P HU HN HB HZ HS HA HO x) (go r)
                end) ps)
  end.

(* ------------------------------------------------------------------ *)
(** ** ExpiredStorage.prototype *)

Section ExpiredStorage.

(** The implementation-defined status codes the backing store's
    [setItem] and [removeItem] return; the wrapper passes them through. *)
Context {R Rm : Type}.
Variable set_ret : store -> string -> string -> R.
Variable rem_ret : store -> string -> Rm.

Definition raw_set (k v : string) : M R :=
  fun s => (inr (set_ret s k v), st_set s k v).
Definition raw_remove (k : string) : M Rm :=
  fun s => (inr (rem_ret s k), st_remove s k).

(** [_expiration_key_prefix]. *)
Definition expiration_key_prefix : string := "__expired_storage_ts__".

(** [updateExpiration(key, expiration)]. *)
Definition updateExpiration (now : Z) (key : string) (expiration : Z) : M R :=
  raw_set (expiration_key_prefix ++ key) (js_number_to_string (now + expiration)).

(** [setItem(key, value, expiration)]; [None] is an omitted (undefined)
    expiration, and [if (expiration)] is false for [0] as well. *)
Definition setItem (now : Z) (key value : string) (expiration : option Z) : M R :=
  r <- raw_set key value ;;
  (match expiration with
   | Some e => if negb (e =? 0)%Z then updateExpiration now key e ;;; ret tt
               else ret tt
   | None => ret tt
   end) ;;;
  ret r.

(** [updateExpiration(key, expiration)] at a TTL that may have a
    fractional part. *)
Definition updateExpiration_num (now : Z) (key : string) (expiration : num) : M R :=
  raw_set (expiration_key_prefix ++ key)
    (num_to_string (num_add (num_of_Z now) expiration)).

(** [setItem(key, value, expiration)] at a TTL that may have a fractional
    part; [if (expiration)] is false for [0] only. *)
Definition setItem_num (now : Z) (key value : string) (expiration : option num) : M R :=
  r <- raw_set key value ;;
  (match expiration with
   | Some e => if negb (num_m e =? 0)%Z then updateExpiration_num now key e ;;; ret tt
               else ret tt
   | None => ret tt
   end) ;;;
  ret r.

(** [getTimeLeft(key)]: [parseInt] of the record ([parseInt(null)] reads
    the text "null"), kept only if truthy and not NaN. *)
Definition getTimeLeft (now : Z) (key : string) : M (option Z) :=
  v <- raw_get (expiration_key_prefix ++ key) ;;
  let expireTime := parseInt (match v with Some t => t | None => "null" end) in
  match expireTime with
  | Some t => if negb (t =? 0)%Z then ret (Some (t - now)%Z) else ret None
  | None => ret None
  end.

(** [timeLeft !== null && timeLeft <= 0]. *)
Definition expired_of (timeLeft : option Z) : bool :=
  match timeLeft with
  | Some t => (t <=? 0)%Z
  | None => false
  end.

(** [isExpired(key)]. *)
Definition isExpired (now : Z) (key : string) : M bool :=
  tl <- getTimeLeft now key ;; ret (expired_of tl).

(** [removeItem(key)]. *)
Definition removeItem (key : string) : M Rm :=
  r <- raw_remove key ;;
  raw_remove (expiration_key_prefix ++ key) ;;;
  ret r.

(** [getItem(key)]. *)
Definition getItem (now : Z) (key : string) : M (option string) :=
  e <- isExpired now key ;;
  if e then removeItem key ;;; ret None
  else raw_get key.

(** The object [peek] returns. *)
Record peek_result := {
  pk_value : option string;
  pk_timeLeft : option Z;
  pk_isExpired : bool
}.

(** [peek(key)]. *)
Definition peek (now : Z) (key : string) : M peek_result :=
  v <- raw_get key ;;
  tl <- getTimeLeft now key ;;
  ret {| pk_value := v; pk_timeLeft := tl; pk_isExpired := expired_of tl |}.

(** [_iterKeys(callback)]: the key list is taken once, before any
    callback runs (the [keys()], [Object.keys] and length/key(i)
    branches all iterate a snapshot). *)
Definition iterKeys {A} (callback : A -> string -> M A) (acc : A) : M A :=
  ks <- raw_keys ;; foldM callback ks acc.

(** [keys(includeExpired)]. *)
Definition keys (now : Z) (includeExpired : bool) : M (list string) :=
  iterKeys (fun ret_ storageKey =>
    if negb (starts_with expiration_key_prefix storageKey) then
      if includeExpired then ret ((ret_ ++ [storageKey])%list)
      else (e <- isExpired now storageKey ;;
            if negb e then ret ((ret_ ++ [storageKey])%list) else ret ret_)
    else ret ret_) [].

(** [clear()]. *)
Definition clear : M unit := fun _ => (inr tt, []).

(** [clearExpired()]; its local [timestamp] is never read. *)
Definition clearExpired (now : Z) : M (list string) :=
  iterKeys (fun ret_ storageKey =>
    if starts_with expiration_key_prefix storageKey then
      let itemKey := substr_from (String.length expiration_key_prefix) storageKey in
      e <- isExpired now itemKey ;;
      if e then removeItem itemKey ;;; ret ((ret_ ++ [itemKey])%list)
      else ret ret_
    else ret ret_) [].

(** [setJson(key, val, expiration)]. *)
Definition setJson (now : Z) (key : string) (val : jsval) (expiration : option Z) : M R :=
  match val with
  | JUndefined => throw UndefinedJson
  | _ => setItem now key
           (match json_stringify val with Some t => t | None => "undefined" end)
           expiration
  end.

(** [getJson(key)]: [JSON.parse]'s SyntaxError propagates. *)
Definition getJson (now : Z) (key : string) : M jsval :=
  val <- getItem now key ;;
  match val with
  | None => ret JNull
  | Some t =>
      match json_parse t with
      | Some v => ret v
      | None => throw SyntaxError
      end
  end.

(** The answer [isExpired] gives in a store (it never throws). *)
Definition expired_in (now : Z) (s : store) (key : string) : bool :=
  match fst (isExpired now key s) with inr b => b | inl _ => false end.

(** The answer [getTimeLeft] gives in a store (it never throws). *)
Definition timeLeft_in (now : Z) (s : store) (key : string) : option Z :=
  match fst (getTimeLeft now key s) with inr t => t | inl _ => None end.

(** The logical key an expiry-record key stands for ([substr]). *)
Definition strip_prefix (storageKey : string) : string :=
  substr_from (String.length expiration_key_prefix) storageKey.

(** The key namespace invariant of the data model: stored keys are
    distinct, and no stored key carries the expiry prefix twice (a logical
    key never starts with the prefix). *)
Definition wf_store (s : store) : Prop :=
  NoDup (st_keys s) /\
  forall k, In k (st_keys s) -> starts_with expiration_key_prefix k = true ->
            starts_with expiration_key_prefix (strip_prefix k) = false.

(** The logical keys of the expired items, in enumeration order. *)
Definition expired_keys (now : Z) (s : store) : list string :=
  map strip_prefix
      (filter (fun k => starts_with expiration_key_prefix k &&
                        expired_in now s (strip_prefix k)) (st_keys s)).

(** Successive [removeItem]s. *)
Definition remove_all (l : list string) (s : store) : store :=
  fold_left (fun st k => st_remove (st_remove st k) (expiration_key_prefix ++ k)) l s.

(** The answer [keys(includeExpired)] gives in a store (it never throws). *)
Definition keys_in (now : Z) (includeExpired : bool) (s : store) : list string :=
  match fst (keys now includeExpired s) with inr ks => ks | inl _ => [] end.

(** Whether [remove_all l] removes the storage key [x]. *)
Definition removed_by (l : list string) (x : string) : bool :=
  existsb (fun e => String.eqb x e || String.eqb x (expiration_key_prefix ++ e)) l.


(* ------------------------------------------------------------------ *)
(** ** Facts about the backing store *)

Lemma st_get_set_eq (s : store) (k v : string) : st_get (st_set s k v) k = Some v.
Proof.
  induction s as [|[k' v'] r IH]; simpl.
  - now rewrite String.eqb_refl.
  - destruct (String.eqb k k') eqn:E; simpl; [now rewrite String.eqb_refl|].
    rewrite E; exact IH.
Qed.

Lemma st_get_set_ne (s : store) (k k0 v : string) :
  k0 <> k -> st_get (st_set s k v) k0 = st_get s k0.
Proof.
  intro Hne. induction s as [|[k' v'] r IH]; simpl.
  - apply String.eqb_neq in Hne. now rewrite Hne.
  - destruct (String.eqb k k') eqn:E; simpl.
    + apply String.eqb_eq in E; subst k'.
      apply String.eqb_neq in Hne. now rewrite Hne.
    + destruct (String.eqb k0 k'); [reflexivity | exact IH].
Qed.

Lemma st_get_remove_eq (s : store) (k : string) : st_get (st_remove s k) k = None.
Proof.
  induction s as [|[k' v'] r IH]; simpl; [reflexivity|].
  destruct (String.eqb k k') eqn:E; simpl; [exact IH|].
  rewrite E; exact IH.
Qed.

Lemma st_get_remove_ne (s : store) (k k0 : string) :
  k0 <> k -> st_get (st_remove s k) k0 = st_get s k0.
Proof.
  intro Hne. induction s as [|[k' v'] r IH]; simpl; [reflexivity|].
  destruct (String.eqb k k') eqn:E; simpl.
  - apply String.eqb_eq in E; subst k'.
    apply String.eqb_neq in Hne. rewrite Hne. exact IH.
  - destruct (String.eqb k0 k'); [reflexivity | exact IH].
Qed.

Lemma append_empty_r (a : string) : (a ++ EmptyString)%string = a.
Proof. induction a; simpl; congruence. Qed.

Lemma append_length (a b : string) : String.length (a ++ b) = String.length a + String.length b.
Proof. induction a; simpl; congruence. Qed.

Lemma key_neq_record (key : string) : key <> expiration_key_prefix ++ key.
Proof.
  intro H. apply (f_equal String.length) in H.
  rewrite append_length in H. simpl in H. lia.
Qed.

(** The expiry record as [getTimeLeft] decodes it. *)
Lemma getTimeLeft_eq (now : Z) (key : string) (s : store) :
  getTimeLeft now key s =
  (inr (match parseInt (match st_get s (expiration_key_prefix ++ key) with
                        | Some t => t | None => "null" end) with
        | Some t => if (t =? 0)%Z then None else Some (t - now)%Z
        | None => None
        end), s).
Proof.
  unfold getTimeLeft, bind, raw_get, ret; simpl.
  destruct (parseInt _) as [t|]; [|reflexivity].
  now destruct (t =? 0)%Z.
Qed.

Lemma isExpired_eq (now : Z) (key : string) (s : store) :
  isExpired now key s = (inr (expired_in now s key), s).
Proof.
  unfold expired_in, isExpired, bind, ret. now rewrite getTimeLeft_eq.
Qed.

Lemma parseInt_null : parseInt "null" = None.
Proof. reflexivity. Qed.


(* ------------------------------------------------------------------ *)
(** ** Decimal text of integers *)

Lemma dec_prefix_uint (u : Decimal.uint) (rest : string) :
  dec_prefix rest = (Decimal.Nil, rest) ->
  dec_prefix (uint_to_string u ++ rest) = (u, rest).
Proof.
  intro H. induction u; simpl; try rewrite IHu; try reflexivity; exact H.
Qed.

Lemma nzhead_not_D0 (d d' : Decimal.uint) : Decimal.nzhead d <> Decimal.D0 d'.
Proof. induction d; simpl; congruence. Qed.

Lemma pos_to_uint_unorm (p : positive) : Pos.to_uint p = Decimal.unorm (Pos.to_uint p).
Proof.
  pose proof (DecimalPos.Unsigned.to_of (Pos.to_uint p)) as H.
  rewrite DecimalPos.Unsigned.of_to in H. exact H.
Qed.

(** The leading decimal digit of a positive number is not 0. *)
Lemma pos_to_uint_head (p : positive) :
  exists d, Pos.to_uint p = Decimal.D1 d \/ Pos.to_uint p = Decimal.D2 d \/
            Pos.to_uint p = Decimal.D3 d \/ Pos.to_uint p = Decimal.D4 d \/
            Pos.to_uint p = Decimal.D5 d \/ Pos.to_uint p = Decimal.D6 d \/
            Pos.to_uint p = Decimal.D7 d \/ Pos.to_uint p = Decimal.D8 d \/
            Pos.to_uint p = Decimal.D9 d.
Proof.
  pose proof (pos_to_uint_unorm p) as Hn.
  pose proof (DecimalPos.Unsigned.to_uint_nonzero p) as Hz.
  pose proof (DecimalPos.Unsigned.to_uint_nonnil p) as Hnil.
  destruct (Pos.to_uint p) as [|d|d|d|d|d|d|d|d|d|d] eqn:E;
    try (exists d; tauto); try contradiction.
  exfalso. unfold Decimal.unorm in Hn.
  destruct (Decimal.nzhead (Decimal.D0 d)) eqn:E2;
    try (apply (nzhead_not_D0 _ _ E2); congruence); try discriminate.
  apply Hz. rewrite Hn. reflexivity.
Qed.

Lemma N_of_uint_pos (p : positive) : N.of_uint (Pos.to_uint p) = Npos p.
Proof. apply DecimalPos.Unsigned.of_to. Qed.

Lemma dec_prefix_full (u : Decimal.uint) :
  dec_prefix (uint_to_string u) = (u, EmptyString).
Proof.
  pose proof (dec_prefix_uint u EmptyString eq_refl) as H.
  rewrite append_empty_r in H. exact H.
Qed.

(** [parseInt(String(n)) === n]. *)
Lemma parseInt_number_to_string (z : Z) : parseInt (js_number_to_string z) = Some z.
Proof.
  destruct z as [|p|p]; [reflexivity| |];
  destruct (pos_to_uint_head p) as [d Hd];
  pose proof (dec_prefix_full (Pos.to_uint p)) as Hf;
  pose proof (N_of_uint_pos p) as Hv;
  repeat destruct Hd as [Hd|Hd]; unfold js_number_to_string;
  rewrite Hd in *; simpl in Hf |- *;
  pose proof (dec_prefix_full d) as Hf';
  unfold parseInt; simpl; rewrite Hf'; simpl;
  simpl in Hv; injection Hv as ->; reflexivity.
Qed.


Lemma isExpired_timeLeft (now : Z) (s : store) (key : string) :
  expired_in now s key = expired_of (timeLeft_in now s key).
Proof.
  unfold expired_in, timeLeft_in, isExpired, bind, ret.
  rewrite getTimeLeft_eq. reflexivity.
Qed.

Lemma removeItem_eq (key : string) (s : store) :
  removeItem key s =
  (inr (rem_ret s key), st_remove (st_remove s key) (expiration_key_prefix ++ key)).
Proof. reflexivity. Qed.

Lemma removeItem_gone (key : string) (s : store) :
  st_get (snd (removeItem key s)) key = None /\
  st_get (snd (removeItem key s)) (expiration_key_prefix ++ key) = None.
Proof.
  rewrite removeItem_eq; simpl. split.
  - rewrite st_get_remove_ne by apply key_neq_record. apply st_get_remove_eq.
  - apply st_get_remove_eq.
Qed.

Lemma getItem_eq (now : Z) (key : string) (s : store) :
  getItem now key s =
  if expired_in now s key
  then (inr None, st_remove (st_remove s key) (expiration_key_prefix ++ key))
  else (inr (st_get s key), s).
Proof.
  unfold getItem, bind, ret. rewrite isExpired_eq.
  destruct (expired_in now s key); reflexivity.
Qed.

(* ------------------------------------------------------------------ *)
(** ** Reading an item *)

(** C1: [getItem] on an expired key (as [isExpired] reports it when the
    call starts) yields the not-found [null] and leaves neither the value
    nor the expiry record in the backing store; on any other key it yields
    the raw stored value (null when never set) and changes nothing. *)
Theorem getItem_lazy_eviction (now : Z) (s : store) (key : string) :
  if expired_in now s key then
    fst (getItem now key s) = inr None /\
    st_get (snd (getItem now key s)) key = None /\
    st_get (snd (getItem now key s)) (expiration_key_prefix ++ key) = None
  else getItem now key s = (inr (st_get s key), s).
Proof.
  destruct (expired_in now s key) eqn:E;
    unfold getItem, bind, ret; rewrite isExpired_eq, E; [|reflexivity].
  rewrite removeItem_eq; simpl.
  pose proof (removeItem_gone key s) as [G1 G2].
  rewrite removeItem_eq in G1, G2. simpl in G1, G2. auto.
Qed.


(* ------------------------------------------------------------------ *)
(** ** Expiry records *)

Lemma setItem_eq (now : Z) (key value : string) (expiration : option Z) (s : store) :
  setItem now key value expiration s =
  (inr (set_ret s key value),
   match expiration with
   | Some e =>
       if (e =? 0)%Z then st_set s key value
       else st_set (st_set s key value) (expiration_key_prefix ++ key)
              (js_number_to_string (now + e))
   | None => st_set s key value
   end).
Proof.
  unfold setItem, bind, ret, raw_set, updateExpiration.
  destruct expiration as [e|]; [destruct (e =? 0)%Z|]; reflexivity.
Qed.

Lemma timeLeft_after_set (T e now : Z) (key value : string) (s : store) :
  (e <> 0)%Z -> (T + e <> 0)%Z ->
  timeLeft_in now (snd (setItem T key value (Some e) s)) key = Some (T + e - now)%Z.
Proof.
  intros He0 Hz. assert (He : (e =? 0)%Z = false) by (apply Z.eqb_neq; lia).
  unfold timeLeft_in. rewrite getTimeLeft_eq, setItem_eq, He. simpl.
  rewrite st_get_set_eq, parseInt_number_to_string.
  apply Z.eqb_neq in Hz. now rewrite Hz.
Qed.

(** C2 (amended): [getTimeLeft] answers null when the expiry record is
    absent, when [parseInt] finds no number in it, and also when the
    number it finds is 0 (the [expireTime &&] test); otherwise it answers
    the recorded instant minus the current time, possibly negative.  For a
    positive TTL [t] set at a time [T >= 0], the time left is 0 at [T+t]
    (and the item counts as expired then) and -5 at [T+t+5]. *)
Theorem getTimeLeft_record_decoding (now : Z) (s : store) (key : string) :
  getTimeLeft now key s =
  (inr (match st_get s (expiration_key_prefix ++ key) with
        | None => None
        | Some text =>
            match parseInt text with
            | Some z => if (z =? 0)%Z then None else Some (z - now)%Z
            | None => None
            end
        end), s) /\
  (forall (T t : Z) (K v : string) (s0 : store),
     (0 <= T)%Z -> (0 < t)%Z ->
     let s1 := snd (setItem T K v (Some t) s0) in
     timeLeft_in (T + t) s1 K = Some 0%Z /\
     expired_in (T + t) s1 K = true /\
     timeLeft_in (T + t + 5) s1 K = Some (-5)%Z).
Proof.
  split.
  - rewrite getTimeLeft_eq. destruct (st_get s _); reflexivity.
  - intros T t K v s0 HT Ht s1.
    assert (Hz : (T + t <> 0)%Z) by lia.
    unfold s1. rewrite isExpired_timeLeft, !timeLeft_after_set by lia.
    replace (T + t - (T + t))%Z with 0%Z by lia.
    replace (T + t - (T + t + 5))%Z with (-5)%Z by lia.
    repeat split.
Qed.

(** C6: with no expiry record for [key], at any time, [getTimeLeft] is
    null and [isExpired] is false; in every store [isExpired] is true
    exactly when [getTimeLeft] is non-null and at most 0. *)
Theorem no_record_never_expires (now : Z) (s : store) (key : string) :
  (st_get s (expiration_key_prefix ++ key) = None ->
   getTimeLeft now key s = (inr None, s) /\ isExpired now key s = (inr false, s)) /\
  isExpired now key s =
  (inr (match timeLeft_in now s key with
        | Some t => (t <=? 0)%Z
        | None => false
        end), s).
Proof.
  split.
  - intro H. unfold isExpired, bind, ret. rewrite getTimeLeft_eq, H. auto.
  - rewrite isExpired_eq, isExpired_timeLeft. reflexivity.
Qed.

(** C10 (amended to integer TTLs): a negative integer TTL whose instant
    [now + ttl] is not 0 is taken as a TTL: [setItem] succeeds, writes the
    expiry record [now + ttl], and right afterwards the time left is
    [ttl], the item is expired and [getItem] answers null.  The clock, the
    TTL and the instant are integers a double holds exactly. *)
Theorem negative_ttl_expires_at_once (now ttl : Z) (key value : string) (s : store) :
  safe_int now = true -> safe_int ttl = true -> safe_int (now + ttl) = true ->
  (ttl < 0)%Z -> (now + ttl <> 0)%Z ->
  let s1 := snd (setItem now key value (Some ttl) s) in
  fst (setItem now key value (Some ttl) s) = inr (set_ret s key value) /\
  st_get s1 (expiration_key_prefix ++ key) = Some (js_number_to_string (now + ttl)) /\
  timeLeft_in now s1 key = Some ttl /\
  expired_in now s1 key = true /\
  fst (getItem now key s1) = inr None.
Proof.
  intros _ _ _ Hneg Hz s1.
  assert (He : (ttl =? 0)%Z = false) by (apply Z.eqb_neq; lia).
  assert (Ht : timeLeft_in now s1 key = Some ttl).
  { unfold s1. rewrite timeLeft_after_set by lia. f_equal; lia. }
  assert (Hx : expired_in now s1 key = true).
  { rewrite isExpired_timeLeft, Ht. simpl. apply Z.leb_le. lia. }
  repeat split.
  - rewrite setItem_eq. reflexivity.
  - unfold s1. rewrite setItem_eq, He. simpl. apply st_get_set_eq.
  - exact Ht.
  - exact Hx.
  - rewrite getItem_eq, Hx. reflexivity.
Qed.


(** C5: [setItem] writes the value; with an omitted or zero TTL the
    expiry record of [key] keeps whatever it held, with a non-zero
    (in particular a positive) TTL it becomes [now + ttl]; no other key
    changes, and the result is the status of the backing store's own
    [setItem] for the value. *)
Theorem setItem_frame (now : Z) (s : store) (key value : string) (expiration : option Z) :
  let '(r, s') := setItem now key value expiration s in
  r = inr (set_ret s key value) /\
  st_get s' key = Some value /\
  (forall k, k <> key -> k <> expiration_key_prefix ++ key -> st_get s' k = st_get s k) /\
  st_get s' (expiration_key_prefix ++ key) =
    match expiration with
    | Some e =>
        if (e =? 0)%Z then st_get s (expiration_key_prefix ++ key)
        else Some (js_number_to_string (now + e))
    | None => st_get s (expiration_key_prefix ++ key)
    end.
Proof.
  rewrite setItem_eq.
  pose proof (key_neq_record key) as Hk.
  assert (Hk' : expiration_key_prefix ++ key <> key) by congruence.
  destruct expiration as [e|]; [destruct (e =? 0)%Z|];
    (split; [reflexivity|]); repeat split; intros;
    repeat (rewrite st_get_set_ne by assumption);
    try apply st_get_set_eq; try reflexivity.
Qed.

(** C3: [peek] leaves the backing store as it is, also for an expired
    key; it reports the raw value, [getTimeLeft] and whether that time
    left is non-null and at most 0.  So a second [peek] answers the same
    and the raw value is still stored. *)
Theorem peek_read_only (now : Z) (s : store) (key : string) :
  peek now key s =
  (inr {| pk_value := st_get s key;
          pk_timeLeft := timeLeft_in now s key;
          pk_isExpired := match timeLeft_in now s key with
                          | Some t => (t <=? 0)%Z
                          | None => false
                          end |}, s) /\
  fst (peek now key (snd (peek now key s))) = fst (peek now key s) /\
  st_get (snd (peek now key s)) key = st_get s key.
Proof.
  assert (H : peek now key s =
    (inr {| pk_value := st_get s key;
            pk_timeLeft := timeLeft_in now s key;
            pk_isExpired := match timeLeft_in now s key with
                            | Some t => (t <=? 0)%Z
                            | None => false
                            end |}, s)).
  { unfold peek, bind, raw_get, ret, timeLeft_in. rewrite getTimeLeft_eq. reflexivity. }
  rewrite H. simpl. rewrite H. auto.
Qed.

(* ------------------------------------------------------------------ *)
(** ** Enumerating keys *)

Lemma foldM_filter (cb : list string -> string -> M (list string))
      (f : string -> bool) (s : store) :
  (forall acc k, cb acc k s = (inr (if f k then (acc ++ [k])%list else acc), s)) ->
  forall ks acc, foldM cb ks acc s = (inr (acc ++ filter f ks)%list, s).
Proof.
  intros Hcb ks. induction ks as [|k ks IH]; intro acc; simpl.
  - now rewrite app_nil_r.
  - unfold bind. rewrite Hcb. rewrite IH.
    destruct (f k); [now rewrite <- app_assoc | reflexivity].
Qed.

(** C7: [keys(includeExpired)] lists, in store order, the stored keys that
    do not start with the expiry prefix, leaving out the expired ones
    unless [includeExpired]; the store is unchanged, so filtered-out
    expired entries stay stored. *)
Theorem keys_filter_no_eviction (now : Z) (includeExpired : bool) (s : store) :
  let ks := filter (fun k => negb (starts_with expiration_key_prefix k) &&
                             (includeExpired || negb (expired_in now s k)))
                   (st_keys s) in
  keys now includeExpired s = (inr ks, s) /\
  (forall k, In k ks -> starts_with expiration_key_prefix k = false).
Proof.
  intro ks. split.
  - unfold keys, iterKeys, bind, raw_keys.
    rewrite (foldM_filter _ (fun k => negb (starts_with expiration_key_prefix k) &&
                             (includeExpired || negb (expired_in now s k)))); [reflexivity|].
    intros acc k.
    destruct (starts_with expiration_key_prefix k); simpl; [reflexivity|].
    destruct includeExpired; simpl; [reflexivity|].
    unfold bind. rewrite isExpired_eq.
    destruct (expired_in now s k); reflexivity.
  - intros k Hin. unfold ks in Hin. apply filter_In in Hin as [_ Hf].
    destruct (starts_with expiration_key_prefix k); [discriminate | reflexivity].
Qed.


(* ------------------------------------------------------------------ *)
(** ** The active sweep *)

Lemma prefix_append (p k : string) : String.prefix p (p ++ k) = true.
Proof.
  induction p as [|a p IH]; simpl; [destruct k; reflexivity|].
  destruct (ascii_dec a a); [exact IH | contradiction].
Qed.

Lemma substr_from_append (p k : string) : substr_from (String.length p) (p ++ k) = k.
Proof. induction p; simpl; [destruct k|]; auto. Qed.

Lemma prefix_split (p x : string) :
  String.prefix p x = true -> (p ++ substr_from (String.length p) x)%string = x.
Proof.
  revert x. induction p as [|a p IH]; intros x H; simpl; [destruct x; reflexivity|].
  destruct x as [|b x]; simpl in H; [discriminate|].
  destruct (ascii_dec a b); [subst b; f_equal; apply IH, H | discriminate].
Qed.

Lemma strip_record (k : string) : strip_prefix (expiration_key_prefix ++ k) = k.
Proof. apply substr_from_append. Qed.

Lemma st_get_in (s : store) (k v : string) : st_get s k = Some v -> In k (st_keys s).
Proof.
  induction s as [|[k' v'] r IH]; simpl; [discriminate|].
  destruct (String.eqb k k') eqn:E; intro H.
  - left. symmetry. now apply String.eqb_eq.
  - right. now apply IH.
Qed.

Lemma expired_in_record (now : Z) (s1 s2 : store) (k : string) :
  st_get s1 (expiration_key_prefix ++ k) = st_get s2 (expiration_key_prefix ++ k) ->
  expired_in now s1 k = expired_in now s2 k.
Proof.
  intro H. rewrite !isExpired_timeLeft. unfold timeLeft_in.
  rewrite !getTimeLeft_eq, H. reflexivity.
Qed.

Lemma expired_has_record (now : Z) (s : store) (k : string) :
  expired_in now s k = true -> In (expiration_key_prefix ++ k) (st_keys s).
Proof.
  rewrite isExpired_timeLeft. unfold timeLeft_in. rewrite getTimeLeft_eq.
  destruct (st_get s (expiration_key_prefix ++ k)) eqn:E; [intros _; eapply st_get_in, E|].
  simpl. discriminate.
Qed.

Lemma remove_all_none (l : list string) (st : store) (k : string) :
  st_get st k = None -> st_get (remove_all l st) k = None.
Proof.
  revert st. induction l as [|e l IH]; intros st H; simpl; [exact H|].
  apply IH.
  destruct (String.eqb k (expiration_key_prefix ++ e)) eqn:E1;
    [apply String.eqb_eq in E1; subst; apply st_get_remove_eq|].
  apply String.eqb_neq in E1. rewrite st_get_remove_ne by exact E1.
  destruct (String.eqb k e) eqn:E2;
    [apply String.eqb_eq in E2; subst; apply st_get_remove_eq|].
  apply String.eqb_neq in E2. rewrite st_get_remove_ne by exact E2. exact H.
Qed.

Lemma remove_all_gone (l : list string) (st : store) (k : string) :
  In k l ->
  st_get (remove_all l st) k = None /\
  st_get (remove_all l st) (expiration_key_prefix ++ k) = None.
Proof.
  revert st. induction l as [|e l IH]; intros st Hin; [contradiction|].
  destruct Hin as [<-|Hin]; [|apply IH, Hin].
  simpl. split; apply remove_all_none.
  - rewrite st_get_remove_ne by apply key_neq_record. apply st_get_remove_eq.
  - apply st_get_remove_eq.
Qed.

Lemma remove_all_other (l : list string) (st : store) (k : string) :
  (forall e, In e l -> k <> e /\ k <> expiration_key_prefix ++ e) ->
  st_get (remove_all l st) k = st_get st k.
Proof.
  revert st. induction l as [|e l IH]; intros st H; simpl; [reflexivity|].
  rewrite IH by (intros e' He'; apply H; right; exact He').
  destruct (H e (or_introl eq_refl)) as [H1 H2].
  rewrite st_get_remove_ne by exact H2. apply st_get_remove_ne, H1.
Qed.

Section Sweep.

Variable now : Z.
Variable s : store.

(** What the callback of [clearExpired] does with one storage key. *)
Variable cb : list string -> string -> M (list string).
Hypothesis cb_eq : forall acc x st,
  cb acc x st =
  if starts_with expiration_key_prefix x then
    if expired_in now st (strip_prefix x) then
      (inr (acc ++ [strip_prefix x])%list,
       st_remove (st_remove st (strip_prefix x)) (expiration_key_prefix ++ strip_prefix x))
    else (inr acc, st)
  else (inr acc, st).

Let sel := fun x => starts_with expiration_key_prefix x && expired_in now s (strip_prefix x).

Lemma sweep_loop (ks : list string) :
  forall acc st,
  NoDup ks ->
  (forall x, In x ks -> starts_with expiration_key_prefix x = true ->
             starts_with expiration_key_prefix (strip_prefix x) = false) ->
  (forall x, In x ks -> starts_with expiration_key_prefix x = true -> st_get st x = st_get s x) ->
  foldM cb ks acc st =
  (inr (acc ++ map strip_prefix (filter sel ks))%list,
   remove_all (map strip_prefix (filter sel ks)) st).
Proof.
  induction ks as [|x ks IH]; intros acc st Hnd Hwf Hrec; simpl.
  - now rewrite app_nil_r.
  - inversion Hnd as [|? ? Hnotin Hnd']; subst.
    assert (IHks : forall acc st,
      (forall y, In y ks -> starts_with expiration_key_prefix y = true -> st_get st y = st_get s y) ->
      foldM cb ks acc st =
      (inr (acc ++ map strip_prefix (filter sel ks))%list,
       remove_all (map strip_prefix (filter sel ks)) st)).
    { intros acc' st' Hr. apply IH; auto. intros y Hy; apply Hwf; right; exact Hy. }
    assert (Hsel : sel x = (starts_with expiration_key_prefix x &&
                            expired_in now s (strip_prefix x))) by reflexivity.
    unfold bind. rewrite cb_eq. cbn [filter]. rewrite Hsel.
    destruct (starts_with expiration_key_prefix x) eqn:Hx; cbv beta iota;
      [|apply IHks; intros y Hy; apply Hrec; right; exact Hy].
    assert (Hsplit : (expiration_key_prefix ++ strip_prefix x)%string = x)
      by (apply prefix_split, Hx).
    assert (Hst : expired_in now st (strip_prefix x) = expired_in now s (strip_prefix x)).
    { apply expired_in_record. rewrite Hsplit. apply Hrec; [left|]; auto. }
    rewrite Hst.
    destruct (expired_in now s (strip_prefix x)) eqn:He; cbv beta iota;
      [|apply IHks; intros y Hy; apply Hrec; right; exact Hy].
    rewrite IHks.
    + rewrite <- app_assoc. reflexivity.
    + intros y Hy Hpy. rewrite Hsplit.
      assert (y <> x) by (intro; subst; contradiction).
      assert (y <> strip_prefix x).
      { intro; subst y. rewrite (Hwf x (or_introl eq_refl) Hx) in Hpy. discriminate. }
      rewrite !st_get_remove_ne by assumption. apply Hrec; [right|]; auto.
Qed.

End Sweep.

Lemma clearExpired_cb_eq (now : Z) (acc : list string) (x : string) (st : store) :
  (fun ret_ storageKey =>
    if starts_with expiration_key_prefix storageKey then
      let itemKey := substr_from (String.length expiration_key_prefix) storageKey in
      e <- isExpired now itemKey ;;
      if e then removeItem itemKey ;;; ret ((ret_ ++ [itemKey])%list)
      else ret ret_
    else ret ret_) acc x st =
  if starts_with expiration_key_prefix x then
    if expired_in now st (strip_prefix x) then
      (inr (acc ++ [strip_prefix x])%list,
       st_remove (st_remove st (strip_prefix x)) (expiration_key_prefix ++ strip_prefix x))
    else (inr acc, st)
  else (inr acc, st).
Proof.
  cbv beta.
  destruct (starts_with expiration_key_prefix x); [|reflexivity].
  unfold bind at 1. rewrite isExpired_eq. unfold strip_prefix.
  destruct (expired_in _ _ _); reflexivity.
Qed.

(** C4: on a store satisfying the key namespace invariant, [clearExpired]
    goes through the expiry-record keys in enumeration order, returns the
    logical keys of those that are expired (exactly the expired keys),
    and afterwards neither the value nor the record of any of them is
    stored, while every other key keeps its value.  On the scenario
    a (TTL 10), b (TTL 15), c (TTL 25), d (no TTL) set at time 0 and swept
    at time 19 it returns [a; b] and [keys(true)] is then [c; d]. *)
Theorem clearExpired_sweep :
  (forall (now : Z) (s : store), wf_store s ->
   let '(r, s') := clearExpired now s in
   r = inr (expired_keys now s) /\
   (forall k, In k (expired_keys now s) <-> expired_in now s k = true) /\
   (forall k, expired_in now s k = true ->
              st_get s' k = None /\ st_get s' (expiration_key_prefix ++ k) = None) /\
   (forall k, (forall e, In e (expired_keys now s) ->
                         k <> e /\ k <> expiration_key_prefix ++ e) ->
              st_get s' k = st_get s k)) /\
  (let s0 := snd ((setItem 0 "a" "1" (Some 10%Z) ;;;
                   setItem 0 "b" "2" (Some 15%Z) ;;;
                   setItem 0 "c" "3" (Some 25%Z) ;;;
                   setItem 0 "d" "4" None) []) in
   fst (clearExpired 19 s0) = inr ["a"; "b"] /\
   fst (keys 19 true (snd (clearExpired 19 s0))) = inr ["c"; "d"]).
Proof.
  split; [|split; reflexivity].
  intros now s [Hnd Hwf].
  assert (Hrun : clearExpired now s = (inr (expired_keys now s), remove_all (expired_keys now s) s)).
  { unfold clearExpired, iterKeys, bind at 1, raw_keys.
    refine (sweep_loop now s _ (clearExpired_cb_eq now) (st_keys s) [] s Hnd _ _); auto. }
  rewrite Hrun.
  assert (Hiff : forall k, In k (expired_keys now s) <-> expired_in now s k = true).
  { intro k. unfold expired_keys. rewrite in_map_iff. split.
    - intros [x [<- Hx]]. apply filter_In in Hx as [_ Hx].
      apply andb_prop in Hx as [_ Hx]. exact Hx.
    - intro He. exists (expiration_key_prefix ++ k)%string. rewrite strip_record.
      split; [reflexivity|]. apply filter_In. split; [apply (expired_has_record now), He|].
      rewrite strip_record, He. unfold starts_with. now rewrite prefix_append. }
  split; [reflexivity|]. split; [exact Hiff|]. split.
  - intros k Hk. apply remove_all_gone, Hiff, Hk.
  - intros k Hk. apply remove_all_other, Hk.
Qed.


(* ------------------------------------------------------------------ *)
(** ** JSON text round trip *)

Lemma append_assoc (a b c : string) : ((a ++ b) ++ c)%string = (a ++ (b ++ c))%string.
Proof. induction a; simpl; congruence. Qed.

(** QuoteJSONString's escape of one code unit reads back as that unit. *)
Lemma parse_chars_escape_char (c : ascii) (t : string) :
  parse_chars (json_escape_char c ++ t) =
  match parse_chars t with
  | Some (u, r) => Some (String c u, r)
  | None => None
  end.
Proof.
  destruct c as [[] [] [] [] [] [] [] []]; reflexivity.
Qed.

Lemma parse_chars_escape (s rest : string) :
  parse_chars (json_escape s ++ String dq rest) = Some (s, rest).
Proof.
  induction s as [|c s IH]; [reflexivity|].
  simpl json_escape. rewrite append_assoc, parse_chars_escape_char, IH. reflexivity.
Qed.

Lemma parse_chars_quote (s rest : string) :
  parse_chars (json_escape s ++ String dq EmptyString ++ rest) = Some (s, rest).
Proof. apply parse_chars_escape. Qed.

Lemma dec_prefix_stop (rest : string) :
  json_stop rest = true -> dec_prefix rest = (Decimal.Nil, rest).
Proof.
  destruct rest as [|c r]; simpl; [reflexivity|].
  destruct (dec_digit c); [discriminate | reflexivity].
Qed.

Lemma number_tail (rest : string) (j : jsval) :
  json_stop rest = true ->
  match rest with
  | String c _ =>
      if (Ascii.eqb c "."%char || Ascii.eqb c "e"%char || Ascii.eqb c "E"%char)%bool
      then None else Some (j, rest)
  | EmptyString => Some (j, rest)
  end = Some (j, rest).
Proof.
  destruct rest as [|c r]; simpl; [reflexivity|].
  destruct (dec_digit c); [discriminate|].
  intro H. apply negb_true_iff in H. now rewrite H.
Qed.

(** [JSON.parse] reads the text [JSON.stringify] writes for an integer. *)
Lemma parse_value_number (f : nat) (z : Z) (rest : string) :
  json_stop rest = true ->
  parse_value (S f) (js_number_to_string z ++ rest) = Some (JNumber z, rest).
Proof.
  intro Hs.
  pose proof (dec_prefix_stop rest Hs) as Hd0.
  destruct z as [|p|p].
  - simpl. apply (number_tail rest (JNumber 0) Hs).
  - destruct (pos_to_uint_head p) as [d Hd].
    pose proof (N_of_uint_pos p) as Hv.
    pose proof (dec_prefix_uint d rest Hd0) as Hp.
    repeat destruct Hd as [Hd|Hd]; unfold js_number_to_string; rewrite Hd in *;
      simpl; unfold parse_number; simpl; rewrite Hp; simpl in Hv |- *;
      injection Hv as Hv; rewrite Hv;
      apply (number_tail rest (JNumber (Z.pos p)) Hs).
  - destruct (pos_to_uint_head p) as [d Hd].
    pose proof (N_of_uint_pos p) as Hv.
    pose proof (dec_prefix_uint d rest Hd0) as Hp.
    repeat destruct Hd as [Hd|Hd]; unfold js_number_to_string; rewrite Hd in *;
      simpl; unfold parse_number; simpl; rewrite Hp; simpl in Hv |- *;
      injection Hv as Hv; rewrite Hv;
      apply (number_tail rest (JNumber (Z.neg p)) Hs).
Qed.

Lemma ok_ser_some (v : jsval) : json_ok v -> json_ser v = Some (ser v).
Proof. destruct v as [| |[]| | | |]; simpl; try tauto; reflexivity. Qed.

(** The first character [JSON.stringify] writes is no white space and
    does not close an array. *)
Lemma ser_head (v : jsval) :
  json_ok v ->
  exists c t, ser v = String c t /\ json_is_space c = false /\ Ascii.eqb c "]"%char = false.
Proof.
  intro Hok. destruct v as [| |[]|z|s|l|ps]; try contradiction;
    try (eexists; eexists; split; [reflexivity | split; reflexivity]).
  destruct z as [|p|p]; try (eexists; eexists; split; [reflexivity | split; reflexivity]).
  destruct (pos_to_uint_head p) as [d Hd].
  repeat destruct Hd as [Hd|Hd]; unfold ser; simpl; rewrite Hd;
    (eexists; eexists; split; [reflexivity | split; reflexivity]).
Qed.

Lemma ser_array (l : list jsval) :
  ser (JArray l) = ("[" ++ String.concat "," (map ser l) ++ "]")%string.
Proof. reflexivity. Qed.

Lemma members_flat_map (ps : list (string * jsval)) :
  fold_right (fun '(_, x) acc => json_ok x /\ acc) True ps ->
  flat_map (fun '(k, x) => match json_ser x with
                           | Some t => [(json_quote k ++ ":" ++ t)%string]
                           | None => []
                           end) ps = map ser_member ps.
Proof.
  induction ps as [|[k x] ps IH]; intro H; [reflexivity|].
  destruct H as [Hx H]. cbn [flat_map map]. rewrite (ok_ser_some x Hx), <- (IH H). reflexivity.
Qed.

Lemma ser_object (ps : list (string * jsval)) :
  fold_right (fun '(_, x) acc => json_ok x /\ acc) True ps ->
  ser (JObject ps) = ("{" ++ String.concat "," (map ser_member ps) ++ "}")%string.
Proof.
  intro H. rewrite <- (members_flat_map ps H). reflexivity.
Qed.

Lemma bracket_text (o cl : ascii) (a rest : string) :
  ((String o EmptyString ++ a ++ String cl EmptyString) ++ rest)%string =
  String o (a ++ String cl rest).
Proof. simpl. rewrite append_assoc. reflexivity. Qed.

(** A text whose first character starts no JSON value is a SyntaxError. *)
Lemma json_bad_start_rejected (text : string) :
  json_bad_start text = true -> json_parse text = None.
Proof.
  unfold json_bad_start, json_parse. intro Hb. cbn [parse_value].
  destruct (skip_ws text) as [|c r]; [reflexivity|].
  destruct c as [[] [] [] [] [] [] [] []]; vm_compute in Hb; try discriminate Hb;
    reflexivity.
Qed.

Lemma skip_ws_head (c : ascii) (t : string) :
  json_is_space c = false -> skip_ws (String c t) = String c t.
Proof. intro H. simpl. rewrite H. reflexivity. Qed.

Lemma concat_cons_app (x : string) (l : list string) (u : string) :
  (String.concat "," (x :: l) ++ u)%string =
  match l with
  | [] => (x ++ u)%string
  | _ => (x ++ String "," (String.concat "," l ++ u))%string
  end.
Proof.
  destruct l as [|y l]; [reflexivity|].
  change (String.concat "," (x :: y :: l)) with (x ++ "," ++ String.concat "," (y :: l))%string.
  rewrite append_assoc. reflexivity.
Qed.

Lemma obj_set_fresh (acc : list (string * jsval)) (k : string) (v : jsval) :
  ~ In k (map fst acc) -> obj_set acc k v = (acc ++ [(k, v)])%list.
Proof.
  induction acc as [|[k' v'] acc IH]; intro H; [reflexivity|].
  simpl in H |- *. destruct (String.eqb k k') eqn:E.
  - apply String.eqb_eq in E. subst. exfalso. apply H. left. reflexivity.
  - rewrite IH by tauto. reflexivity.
Qed.

Lemma build_object_nodup (ps : list (string * jsval)) :
  NoDup (map fst ps) -> build_object ps = ps.
Proof.
  unfold build_object.
  assert (G : forall acc, NoDup (map fst (acc ++ ps)) ->
              fold_left (fun acc '(k, v) => obj_set acc k v) ps acc = (acc ++ ps)%list).
  { induction ps as [|[k v] ps IH]; intros acc H; simpl; [now rewrite app_nil_r|].
    rewrite obj_set_fresh.
    - rewrite IH; [now rewrite <- app_assoc|]. now rewrite <- app_assoc.
    - rewrite map_app in H. simpl in H. apply NoDup_remove_2 in H.
      rewrite in_app_iff in H. tauto. }
  intro H. apply (G []). exact H.
Qed.

Lemma parse_elements_S (f : nat) (s : string) :
  parse_elements (S f) s =
  match parse_value f s with
  | Some (v, r) =>
      match skip_ws r with
      | String ","%char r' =>
          match parse_elements f r' with
          | Some (l, r'') => Some (v :: l, r'')
          | None => None
          end
      | String "]"%char r' => Some ([v], r')
      | _ => None
      end
  | None => None
  end.
Proof. reflexivity. Qed.

Lemma parse_members_S (f : nat) (s : string) :
  parse_members (S f) (String dq s) =
  match parse_chars s with
  | Some (k, r1) =>
      match skip_ws r1 with
      | String ":"%char r2 =>
          match parse_value f r2 with
          | Some (v, r3) =>
              match skip_ws r3 with
              | String ","%char r4 =>
                  match parse_members f r4 with
                  | Some (ms, r5) => Some ((k, v) :: ms, r5)
                  | None => None
                  end
              | String "}"%char r4 => Some ([(k, v)], r4)
              | _ => None
              end
          | None => None
          end
      | _ => None
      end
  | None => None
  end.
Proof. reflexivity. Qed.

Lemma parse_value_array (f : nat) (r : string) :
  parse_value (S f) (String "[" r) =
  match skip_ws r with
  | String c2 r' =>
      if Ascii.eqb c2 "]"%char then Some (JArray [], r')
      else match parse_elements f r with
           | Some (l, r'') => Some (JArray l, r'')
           | None => None
           end
  | EmptyString => None
  end.
Proof. reflexivity. Qed.

Lemma parse_value_object (f : nat) (r : string) :
  parse_value (S f) (String "{" r) =
  match skip_ws r with
  | String c2 r' =>
      if Ascii.eqb c2 "}"%char then Some (JObject [], r')
      else match parse_members f r with
           | Some (ms, r'') => Some (JObject (build_object ms), r'')
           | None => None
           end
  | EmptyString => None
  end.
Proof. reflexivity. Qed.

Lemma parse_value_string (f : nat) (r : string) :
  parse_value (S f) (String dq r) =
  match parse_chars r with
  | Some (t, r') => Some (JString t, r')
  | None => None
  end.
Proof. reflexivity. Qed.

Lemma member_text (k : string) (x : jsval) (u : string) :
  (ser_member (k, x) ++ u)%string =
  String dq (json_escape k ++ String dq (String ":" (ser x ++ u))).
Proof. unfold ser_member, json_quote. simpl. repeat rewrite append_assoc. reflexivity. Qed.

Definition parses_back (v : jsval) : Prop :=
  json_ok v -> forall n rest, jsize v < n -> json_stop rest = true ->
  parse_value n (ser v ++ rest) = Some (v, rest).

Lemma parse_elements_ser (l : list jsval) :
  Forall parses_back l ->
  fold_right (fun x acc => json_ok x /\ acc) True l -> l <> [] ->
  forall m r, list_sum (map (fun x => S (jsize x)) l) < m ->
  parse_elements m (String.concat "," (map ser l) ++ String "]" r) = Some (l, r).
Proof.
  induction l as [|x l IH]; intros HF Hok Hne m r Hm; [congruence|].
  inversion HF as [|? ? Px HF']; subst. destruct Hok as [Hx Hok'].
  destruct m as [|m]; [simpl in Hm; lia|].
  destruct l as [|y l]; cbn [map]; rewrite concat_cons_app, parse_elements_S;
    cbv beta iota.
  - rewrite (Px Hx m (String "]" r)) by (simpl in Hm |- *; lia || reflexivity).
    reflexivity.
  - rewrite (Px Hx m (String "," _)) by (simpl in Hm |- *; lia || reflexivity).
    change (ser y :: map ser l) with (map ser (y :: l)).
    cbv beta iota.
    change (skip_ws (String "," ?z)) with (String "," z). cbv iota.
    rewrite IH; [reflexivity | assumption | assumption | congruence |].
    simpl in Hm |- *. lia.
Qed.

Lemma parse_members_ser (ps : list (string * jsval)) :
  Forall (fun p => parses_back (snd p)) ps ->
  fold_right (fun '(_, x) acc => json_ok x /\ acc) True ps -> ps <> [] ->
  forall m r, list_sum (map (fun '(_, x) => S (jsize x)) ps) < m ->
  parse_members m (String.concat "," (map ser_member ps) ++ String "}" r) = Some (ps, r).
Proof.
  induction ps as [|[k x] ps IH]; intros HF Hok Hne m r Hm; [congruence|].
  inversion HF as [|? ? Px HF']; subst. destruct Hok as [Hx Hok'].
  simpl in Px.
  destruct m as [|m]; [simpl in Hm; lia|].
  destruct ps as [|[k' y] ps]; cbn [map]; rewrite concat_cons_app; cbv beta iota.
  - rewrite member_text, parse_members_S, parse_chars_escape.
    change (skip_ws (String ":" ?z)) with (String ":" z). cbv iota.
    rewrite (Px Hx m (String "}" r)) by (simpl in Hm |- *; lia || reflexivity).
    reflexivity.
  - rewrite member_text, parse_members_S, parse_chars_escape.
    change (skip_ws (String ":" ?z)) with (String ":" z). cbv iota.
    rewrite (Px Hx m (String "," _)) by (simpl in Hm |- *; lia || reflexivity).
    change (ser_member (k', y) :: map ser_member ps) with (map ser_member ((k', y) :: ps)).
    cbv beta iota.
    change (skip_ws (String "," ?z)) with (String "," z). cbv iota.
    rewrite IH; [reflexivity | assumption | assumption | congruence |].
    simpl in Hm |- *. lia.
Qed.

Lemma concat_ser_head (l : list jsval) (u : string) :
  fold_right (fun x acc => json_ok x /\ acc) True l -> l <> [] ->
  exists c t, (String.concat "," (map ser l) ++ u)%string = String c t /\
              json_is_space c = false /\ Ascii.eqb c "]"%char = false.
Proof.
  intros Hok Hne. destruct l as [|x l]; [congruence|].
  destruct Hok as [Hx _]. destruct (ser_head x Hx) as (c & t & Ht & H1 & H2).
  destruct l; cbn [map]; rewrite concat_cons_app; cbv beta iota; rewrite Ht; eexists; eexists; (split; [reflexivity | split; assumption]).
Qed.

Lemma concat_member_head (ps : list (string * jsval)) (u : string) :
  ps <> [] ->
  exists t, (String.concat "," (map ser_member ps) ++ u)%string = String dq t.
Proof.
  intros Hne. destruct ps as [|[k x] ps]; [congruence|].
  destruct ps; cbn [map]; rewrite concat_cons_app; cbv beta iota; rewrite member_text; eexists; reflexivity.
Qed.

Lemma parse_ser_value (v : jsval) : parses_back v.
Proof.
  revert v. apply jsval_ind2; unfold parses_back.
  - intro H. contradiction.
  - intros _ n rest Hn Hs. destruct n; [simpl in Hn; lia|]. destruct rest; reflexivity.
  - intros b _ n rest Hn Hs. destruct n; [simpl in Hn; lia|].
    destruct b, rest; reflexivity.
  - intros z _ n rest Hn Hs. destruct n; [simpl in Hn; lia|]. apply parse_value_number, Hs.
  - intros s _ n rest Hn Hs. destruct n as [|f]; [simpl in Hn; lia|].
    change (ser (JString s) ++ rest)%string
      with (String dq ((json_escape s ++ String dq EmptyString) ++ rest)).
    rewrite parse_value_string, append_assoc, parse_chars_quote. reflexivity.
  - intros l HF Hok n rest Hn Hs. destruct n as [|f]; [simpl in Hn; lia|].
    rewrite ser_array, bracket_text.
    destruct l as [|x l]; [reflexivity|].
    destruct (concat_ser_head (x :: l) (String "]" rest) Hok ltac:(congruence))
      as (c & t & Ht & H1 & H2).
    rewrite parse_value_array, Ht. cbn [skip_ws]. rewrite H1, H2. rewrite <- Ht.
    rewrite parse_elements_ser; [reflexivity | assumption | assumption | congruence |].
    simpl in Hn |- *. lia.
  - intros ps HF [Hnd Hok] n rest Hn Hs. destruct n as [|f]; [simpl in Hn; lia|].
    rewrite (ser_object ps Hok), bracket_text.
    destruct ps as [|[k x] ps]; [reflexivity|].
    destruct (concat_member_head ((k, x) :: ps) (String "}" rest) ltac:(congruence))
      as (t & Ht).
    rewrite parse_value_object, Ht.
    change (skip_ws (String dq t)) with (String dq t).
    change (Ascii.eqb dq "}"%char) with false. cbv iota.
    rewrite <- Ht.
    rewrite parse_members_ser; [| assumption | assumption | congruence |].
    + rewrite build_object_nodup by assumption. reflexivity.
    + simpl in Hn |- *. lia.
Qed.
Definition size_bound (v : jsval) : Prop := json_ok v -> jsize v <= String.length (ser v).

Lemma concat_length_cons (x y : string) (l : list string) :
  String.length (String.concat "," (x :: y :: l)) =
  String.length x + S (String.length (String.concat "," (y :: l))).
Proof.
  change (String.concat "," (x :: y :: l)) with (x ++ "," ++ String.concat "," (y :: l))%string.
  rewrite append_length. reflexivity.
Qed.

Lemma elements_size (l : list jsval) :
  Forall size_bound l -> fold_right (fun x acc => json_ok x /\ acc) True l ->
  list_sum (map (fun x => S (jsize x)) l) <= S (String.length (String.concat "," (map ser l))).
Proof.
  induction l as [|x l IH]; intros HF Hok; [simpl; lia|].
  inversion HF as [|? ? Px HF']; subst. destruct Hok as [Hx Hok'].
  specialize (Px Hx). specialize (IH HF' Hok').
  destruct l as [|y l].
  - change (String.concat "," (map ser [x])) with (ser x). cbn [map]. unfold list_sum. cbn [fold_right]. lia.
  - cbn [map] in IH |- *. rewrite concat_length_cons.
    unfold list_sum in IH |- *. cbn [fold_right] in IH |- *. lia.
Qed.

Lemma member_length (k : string) (x : jsval) :
  3 + String.length (ser x) <= String.length (ser_member (k, x)).
Proof.
  unfold ser_member, json_quote. change (":" ++ ser x)%string with (String ":" (ser x)).
  rewrite append_length. cbn [String.length]. rewrite append_length. cbn [String.length]. lia.
Qed.

Lemma members_size (ps : list (string * jsval)) :
  Forall (fun p => size_bound (snd p)) ps ->
  fold_right (fun '(_, x) acc => json_ok x /\ acc) True ps ->
  list_sum (map (fun '(_, x) => S (jsize x)) ps)
    <= S (String.length (String.concat "," (map ser_member ps))).
Proof.
  induction ps as [|[k x] ps IH]; intros HF Hok; [simpl; lia|].
  inversion HF as [|? ? Px HF']; subst. destruct Hok as [Hx Hok'].
  simpl in Px. specialize (Px Hx). specialize (IH HF' Hok').
  pose proof (member_length k x) as Hm.
  destruct ps as [|[k' y] ps].
  - change (String.concat "," (map ser_member [(k, x)])) with (ser_member (k, x)).
    cbn [map]. unfold list_sum. cbn [fold_right]. lia.
  - cbn [map] in IH |- *. rewrite concat_length_cons.
    unfold list_sum in IH |- *. cbn [fold_right] in IH |- *. lia.
Qed.

Lemma ser_size (v : jsval) : size_bound v.
Proof.
  revert v. apply jsval_ind2; unfold size_bound;
    [ intros Hok | intros Hok | intros b Hok | intros z Hok | intros s Hok
    | intros l HF Hok | intros ps HF [Hnd Hok] ];
    try (destruct (ser_head _ Hok) as (c & t & Ht & _); rewrite Ht; simpl; lia).
  - rewrite ser_array. pose proof (elements_size l HF Hok).
    rewrite append_length. cbn [String.length]. rewrite append_length. cbn [String.length jsize].
    lia.
  - rewrite (ser_object ps Hok). pose proof (members_size ps HF Hok).
    rewrite append_length. cbn [String.length]. rewrite append_length. cbn [String.length jsize].
    lia.
Qed.

(** [JSON.parse(JSON.stringify(v))] gives [v] back. *)
Lemma json_parse_ser (v : jsval) : json_ok v -> json_parse (ser v) = Some v.
Proof.
  intro Hok. unfold json_parse.
  pose proof (ser_size v Hok) as Hsz.
  pose proof (parse_ser_value v Hok (S (String.length (ser v))) EmptyString ltac:(lia)
                eq_refl) as H.
  rewrite append_empty_r in H. rewrite H. reflexivity.
Qed.


(* ------------------------------------------------------------------ *)
(** ** JSON items *)

Lemma setItem_value (now : Z) (key value : string) (expiration : option Z) (s : store) :
  st_get (snd (setItem now key value expiration s)) key = Some value.
Proof.
  rewrite setItem_eq. cbn [snd].
  destruct expiration as [e|]; [destruct (e =? 0)%Z|];
    try rewrite st_get_set_ne by apply key_neq_record;
    apply st_get_set_eq.
Qed.

Lemma json_ser_defined (v : jsval) : v <> JUndefined -> json_ser v = Some (ser v).
Proof. destruct v as [| |[]| | | |]; intro H; [congruence | reflexivity ..]. Qed.

Lemma setJson_ok (now : Z) (key : string) (v : jsval) (expiration : option Z) :
  json_ok v -> setJson now key v expiration = setItem now key (ser v) expiration.
Proof.
  intro H. unfold setJson, json_stringify. rewrite (ok_ser_some v H).
  destruct v; [contradiction | reflexivity ..].
Qed.

(** C8: [setJson] on [undefined] throws and leaves the store as it was
    (no value, no expiry record written); every other value is written
    and [setJson] returns [set]'s answer; after [setJson(K, null)] a
    [getJson(K)] yields [null], whether or not the entry has expired. *)
Theorem setJson_undefined_rejected (now : Z) (key : string) (expiration : option Z) (s : store) :
  setJson now key JUndefined expiration s = (inl UndefinedJson, s) /\
  (forall v, v <> JUndefined ->
     fst (setJson now key v expiration s) = inr (set_ret s key (ser v))) /\
  (forall now', fst (getJson now' key (snd (setJson now key JNull expiration s))) = inr JNull).
Proof.
  split; [reflexivity|]. split.
  - intros v Hv. unfold setJson, json_stringify. rewrite (json_ser_defined v Hv).
    destruct v; [congruence | ..]; rewrite setItem_eq; reflexivity.
  - intro now'. rewrite (setJson_ok now key JNull expiration I).
    unfold getJson, bind. rewrite getItem_eq.
    destruct (expired_in now' _ key); [reflexivity|].
    rewrite setItem_value. reflexivity.
Qed.

(** C9: for a JSON value (integers for numbers, no [undefined] inside,
    no repeated member name), [getJson(K)] after [setJson(K, v, ttl)],
    while [K] is not expired, yields [v] and changes nothing. *)
Theorem getJson_after_setJson (now now' : Z) (key : string) (v : jsval)
  (expiration : option Z) (s : store) :
  json_ok v ->
  expired_in now' (snd (setJson now key v expiration s)) key = false ->
  getJson now' key (snd (setJson now key v expiration s)) =
  (inr v, snd (setJson now key v expiration s)).
Proof.
  intros Hok Hne. rewrite (setJson_ok now key v expiration Hok) in Hne |- *.
  unfold getJson, bind. rewrite getItem_eq, Hne. cbv beta iota.
  rewrite setItem_value, json_parse_ser by exact Hok. reflexivity.
Qed.

(* ------------------------------------------------------------------ *)
(** ** More facts about the backing store and the wrapper *)

Lemma append_cancel_l (p a b : string) : (p ++ a)%string = (p ++ b)%string -> a = b.
Proof. induction p as [|c p IH]; simpl; intro H; [exact H | injection H; exact IH]. Qed.

Lemma starts_with_record (k : string) :
  starts_with expiration_key_prefix (expiration_key_prefix ++ k) = true.
Proof. apply prefix_append. Qed.

Lemma record_neq_key (key : string) : (expiration_key_prefix ++ key)%string <> key.
Proof. intro H. apply (key_neq_record key). symmetry. exact H. Qed.

Lemma filter_and {A} (f g : A -> bool) (l : list A) :
  filter f (filter g l) = filter (fun x => g x && f x) l.
Proof.
  induction l as [|a l IH]; simpl; [reflexivity|].
  destruct (g a); simpl; [destruct (f a); simpl; rewrite IH; reflexivity | exact IH].
Qed.

Lemma filter_all_false {A} (f : A -> bool) (l : list A) :
  (forall x, f x = false) -> filter f l = [].
Proof. intro H. induction l as [|a l IH]; simpl; [reflexivity|]. now rewrite H. Qed.

Lemma st_keys_remove (s : store) (k : string) :
  st_keys (st_remove s k) = filter (fun x => negb (String.eqb k x)) (st_keys s).
Proof.
  unfold st_keys. induction s as [|[k' v'] r IH]; simpl; [reflexivity|].
  destruct (String.eqb k k'); simpl; congruence.
Qed.

Lemma st_keys_set (s : store) (k v : string) :
  st_keys (st_set s k v) =
  if existsb (String.eqb k) (st_keys s) then st_keys s else (st_keys s ++ [k])%list.
Proof.
  unfold st_keys. induction s as [|[k' v'] r IH]; simpl; [reflexivity|].
  destruct (String.eqb k k') eqn:E; simpl.
  - apply String.eqb_eq in E. subst. reflexivity.
  - rewrite IH. destruct (existsb (String.eqb k) (map fst r)); reflexivity.
Qed.

Lemma st_remove_idem (s : store) (k : string) : st_remove (st_remove s k) k = st_remove s k.
Proof.
  induction s as [|[k' v'] r IH]; simpl; [reflexivity|].
  destruct (String.eqb k k') eqn:E; simpl; [exact IH|]. rewrite E. congruence.
Qed.

Lemma st_remove_comm (s : store) (a b : string) :
  st_remove (st_remove s a) b = st_remove (st_remove s b) a.
Proof.
  induction s as [|[k' v'] r IH]; simpl; [reflexivity|].
  destruct (String.eqb a k') eqn:Ea, (String.eqb b k') eqn:Eb; simpl;
    rewrite ?Ea, ?Eb; congruence.
Qed.

Lemma st_remove_absent (s : store) (k : string) : ~ In k (st_keys s) -> st_remove s k = s.
Proof.
  unfold st_keys. induction s as [|[k' v'] r IH]; simpl; intro H; [reflexivity|].
  destruct (String.eqb k k') eqn:E.
  - apply String.eqb_eq in E. subst. exfalso. apply H. left. reflexivity.
  - rewrite IH by (intro Hk; apply H; right; exact Hk). reflexivity.
Qed.

Lemma NoDup_snoc (l : list string) (k : string) :
  NoDup l -> ~ In k l -> NoDup (l ++ [k])%list.
Proof.
  induction l as [|a l IH]; simpl; intros Hnd Hk; [repeat constructor; auto|].
  inversion Hnd as [|? ? Ha Hnd']; subst. constructor.
  - rewrite in_app_iff. simpl. intuition.
  - apply IH; tauto.
Qed.

Lemma timeLeft_in_eq (now : Z) (s : store) (key : string) :
  timeLeft_in now s key =
  match parseInt (match st_get s (expiration_key_prefix ++ key) with
                  | Some t => t | None => "null" end) with
  | Some t => if (t =? 0)%Z then None else Some (t - now)%Z
  | None => None
  end.
Proof. unfold timeLeft_in. rewrite getTimeLeft_eq. reflexivity. Qed.

Lemma expired_no_record (now : Z) (s : store) (k : string) :
  st_get s (expiration_key_prefix ++ k) = None -> expired_in now s k = false.
Proof. intro H. rewrite isExpired_timeLeft, timeLeft_in_eq, H, parseInt_null. reflexivity. Qed.

Lemma keys_run (now : Z) (includeExpired : bool) (s : store) :
  keys now includeExpired s =
  (inr (filter (fun k => negb (starts_with expiration_key_prefix k) &&
                         (includeExpired || negb (expired_in now s k)))
               (st_keys s)), s).
Proof.
  unfold keys, iterKeys, bind, raw_keys.
  rewrite (foldM_filter _ (fun k => negb (starts_with expiration_key_prefix k) &&
                           (includeExpired || negb (expired_in now s k)))); [reflexivity|].
  intros acc k.
  destruct (starts_with expiration_key_prefix k); simpl; [reflexivity|].
  destruct includeExpired; simpl; [reflexivity|].
  unfold bind. rewrite isExpired_eq.
  destruct (expired_in now s k); reflexivity.
Qed.

Lemma keys_in_eq (now : Z) (includeExpired : bool) (s : store) :
  keys_in now includeExpired s =
  filter (fun k => negb (starts_with expiration_key_prefix k) &&
                   (includeExpired || negb (expired_in now s k)))
         (st_keys s).
Proof. unfold keys_in. rewrite keys_run. reflexivity. Qed.

Lemma clearExpired_run (now : Z) (s : store) :
  wf_store s ->
  clearExpired now s = (inr (expired_keys now s), remove_all (expired_keys now s) s).
Proof.
  intros [Hnd Hwf]. unfold clearExpired, iterKeys, bind at 1, raw_keys.
  refine (sweep_loop now s _ (clearExpired_cb_eq now) (st_keys s) [] s Hnd _ _); auto.
Qed.

Lemma expired_keys_iff (now : Z) (s : store) (k : string) :
  In k (expired_keys now s) <-> expired_in now s k = true.
Proof.
  unfold expired_keys. rewrite in_map_iff. split.
  - intros [x [<- Hx]]. apply filter_In in Hx as [_ Hx].
    apply andb_prop in Hx as [_ Hx]. exact Hx.
  - intro He. exists (expiration_key_prefix ++ k)%string. rewrite strip_record.
    split; [reflexivity|]. apply filter_In. split; [apply (expired_has_record now), He|].
    rewrite strip_record, He, starts_with_record. reflexivity.
Qed.

Lemma expired_keys_unprefixed (now : Z) (s : store) (e : string) :
  wf_store s -> In e (expired_keys now s) -> starts_with expiration_key_prefix e = false.
Proof.
  intros [_ Hwf] He. unfold expired_keys in He. apply in_map_iff in He as [x [<- Hx]].
  apply filter_In in Hx as [Hin Hx]. apply andb_prop in Hx as [Hp _].
  exact (Hwf x Hin Hp).
Qed.

Lemma prefixed_neq (k e : string) :
  starts_with expiration_key_prefix e = false -> (expiration_key_prefix ++ k)%string <> e.
Proof. intros H Heq. rewrite <- Heq, starts_with_record in H. discriminate. Qed.

Lemma filter_all_true {A} (f : A -> bool) (l : list A) :
  (forall x, f x = true) -> filter f l = l.
Proof. intro H. induction l as [|a l IH]; simpl; [reflexivity|]. now rewrite H, IH. Qed.

Lemma st_keys_remove_all (l : list string) (s : store) :
  st_keys (remove_all l s) = filter (fun x => negb (removed_by l x)) (st_keys s).
Proof.
  revert s. induction l as [|e l IH]; intro s.
  - symmetry. apply filter_all_true. reflexivity.
  - change (remove_all (e :: l) s)
      with (remove_all l (st_remove (st_remove s e) (expiration_key_prefix ++ e))).
    rewrite IH, !st_keys_remove, !filter_and. apply filter_ext. intro x.
    change (removed_by (e :: l) x)
      with ((String.eqb x e || String.eqb x (expiration_key_prefix ++ e)) || removed_by l x)%bool.
    rewrite (String.eqb_sym e x), (String.eqb_sym (expiration_key_prefix ++ e) x).
    destruct (String.eqb x e), (String.eqb x (expiration_key_prefix ++ e)); reflexivity.
Qed.

Lemma removed_by_true (l : list string) (x : string) : In x l -> removed_by l x = true.
Proof.
  intro H. apply existsb_exists. exists x. split; [exact H|]. now rewrite String.eqb_refl.
Qed.

Lemma removed_by_false (l : list string) (x : string) :
  (forall e, In e l -> x <> e /\ x <> expiration_key_prefix ++ e) -> removed_by l x = false.
Proof.
  intro H. destruct (removed_by l x) eqn:E; [|reflexivity].
  apply existsb_exists in E as [e [He Hx]]. destruct (H e He) as [H1 H2].
  apply String.eqb_neq in H1, H2. rewrite H1, H2 in Hx. discriminate.
Qed.

Lemma wf_store_sub (s s' : store) :
  wf_store s -> NoDup (st_keys s') -> (forall x, In x (st_keys s') -> In x (st_keys s)) ->
  wf_store s'.
Proof.
  intros [_ Hwf] Hnd Hsub. split; [exact Hnd|]. intros k Hk. apply Hwf, Hsub, Hk.
Qed.

Lemma wf_remove (s : store) (k : string) : wf_store s -> wf_store (st_remove s k).
Proof.
  intro H. apply (wf_store_sub s); [exact H| |]; rewrite st_keys_remove.
  - apply NoDup_filter, (proj1 H).
  - intros x Hx. apply filter_In in Hx as [Hx _]. exact Hx.
Qed.

Lemma wf_remove_all (l : list string) (s : store) : wf_store s -> wf_store (remove_all l s).
Proof.
  intro H. apply (wf_store_sub s); [exact H| |]; rewrite st_keys_remove_all.
  - apply NoDup_filter, (proj1 H).
  - intros x Hx. apply filter_In in Hx as [Hx _]. exact Hx.
Qed.

Lemma wf_set (s : store) (k v : string) :
  wf_store s ->
  (starts_with expiration_key_prefix k = true ->
   starts_with expiration_key_prefix (strip_prefix k) = false) ->
  wf_store (st_set s k v).
Proof.
  intros [Hnd Hwf] Hk. unfold wf_store. rewrite st_keys_set.
  destruct (existsb (String.eqb k) (st_keys s)) eqn:E.
  - split; assumption.
  - split.
    + apply NoDup_snoc; [exact Hnd|]. intro Hin.
      assert (existsb (String.eqb k) (st_keys s) = true)
        by (apply existsb_exists; exists k; split; [exact Hin | apply String.eqb_refl]).
      congruence.
    + intros x Hx. apply in_app_iff in Hx as [Hx|[<-|[]]]; [apply Hwf, Hx | exact Hk].
Qed.

(** The expiry record of a key the sweep did not select is left alone. *)
Lemma sweep_keeps_record (now : Z) (s : store) (k : string) :
  wf_store s -> ~ In k (expired_keys now s) ->
  st_get (remove_all (expired_keys now s) s) (expiration_key_prefix ++ k) =
  st_get s (expiration_key_prefix ++ k).
Proof.
  intros Hwf Hk. apply remove_all_other. intros e He. split.
  - apply prefixed_neq, (expired_keys_unprefixed now s e Hwf He).
  - intro Heq. apply append_cancel_l in Heq. subst. contradiction.
Qed.

(** After the sweep no key is expired any more (at the sweep's time). *)
Lemma sweep_nothing_expired (now : Z) (s : store) (k : string) :
  wf_store s -> expired_in now (remove_all (expired_keys now s) s) k = false.
Proof.
  intro Hwf. destruct (in_dec string_dec k (expired_keys now s)) as [Hin|Hnin].
  - apply expired_no_record, (remove_all_gone _ s k Hin).
  - rewrite (expired_in_record now _ s k) by (apply sweep_keeps_record; assumption).
    destruct (expired_in now s k) eqn:E; [|reflexivity].
    exfalso. apply Hnin, expired_keys_iff, E.
Qed.

(* ------------------------------------------------------------------ *)
(** ** Further properties of the wrapper *)

(** [removeItem(key)] answers the backing store's answer for [key],
    leaves neither the value nor the expiry record of [key], and keeps
    every other entry. *)
Theorem removeItem_frame (key : string) (s : store) :
  fst (removeItem key s) = inr (rem_ret s key) /\
  st_get (snd (removeItem key s)) key = None /\
  st_get (snd (removeItem key s)) (expiration_key_prefix ++ key) = None /\
  (forall k, k <> key -> k <> expiration_key_prefix ++ key ->
             st_get (snd (removeItem key s)) k = st_get s k).
Proof.
  pose proof (removeItem_gone key s) as [G1 G2].
  split; [reflexivity|]. split; [exact G1|]. split; [exact G2|].
  intros k H1 H2. rewrite removeItem_eq. cbn [snd].
  rewrite st_get_remove_ne by exact H2. apply st_get_remove_ne, H1.
Qed.

(** Removing twice is removing once, and removing a key that has neither
    a value nor an expiry record changes nothing. *)
Theorem removeItem_idempotent (key : string) (s : store) :
  snd (removeItem key (snd (removeItem key s))) = snd (removeItem key s) /\
  (~ In key (st_keys s) -> ~ In (expiration_key_prefix ++ key) (st_keys s) ->
   snd (removeItem key s) = s).
Proof.
  split.
  - rewrite !removeItem_eq. cbn [snd].
    rewrite (st_remove_comm (st_remove s key) (expiration_key_prefix ++ key) key).
    rewrite !st_remove_idem. reflexivity.
  - intros H1 H2. rewrite removeItem_eq. cbn [snd].
    rewrite (st_remove_absent s key H1). apply st_remove_absent, H2.
Qed.

(** A second [getItem(key)] at the same time answers what the first one
    answered and changes nothing more: an expired entry is gone after the
    first call. *)
Theorem getItem_idempotent (now : Z) (key : string) (s : store) :
  getItem now key (snd (getItem now key s)) = (fst (getItem now key s), snd (getItem now key s)).
Proof.
  rewrite (getItem_eq now key s).
  destruct (expired_in now s key) eqn:E; cbn [fst snd].
  - set (s1 := st_remove (st_remove s key) (expiration_key_prefix ++ key)).
    assert (G : st_get s1 key = None /\ st_get s1 (expiration_key_prefix ++ key) = None).
    { pose proof (removeItem_gone key s) as G. rewrite removeItem_eq in G. exact G. }
    rewrite getItem_eq, expired_no_record by apply G. rewrite (proj1 G). reflexivity.
  - rewrite getItem_eq, E. reflexivity.
Qed.

(** A value set with a non-zero integer TTL [e] is what [getItem] returns,
    without touching the store, at every time before [now + e] (the clock,
    [e] and [now + e] being integers a double holds exactly). *)
Theorem getItem_before_deadline (now now' e : Z) (key value : string) (s : store) :
  safe_int now = true -> safe_int e = true -> safe_int (now + e) = true ->
  (e <> 0)%Z -> (now' < now + e)%Z ->
  let s1 := snd (setItem now key value (Some e) s) in
  getItem now' key s1 = (inr (Some value), s1).
Proof.
  intros _ _ _ He Hlt s1.
  assert (Hx : expired_in now' s1 key = false).
  { rewrite isExpired_timeLeft.
    destruct (Z.eq_dec (now + e) 0) as [Hz|Hz].
    - unfold s1. rewrite timeLeft_in_eq, setItem_eq.
      replace (e =? 0)%Z with false by (symmetry; apply Z.eqb_neq; exact He).
      cbn [snd]. rewrite st_get_set_eq, parseInt_number_to_string, Hz. reflexivity.
    - unfold s1. rewrite timeLeft_after_set by assumption. simpl. apply Z.leb_gt. lia. }
  rewrite getItem_eq, Hx. unfold s1. rewrite setItem_value. reflexivity.
Qed.

(** [setItem] with an omitted or zero TTL keeps an expiry record that has
    already run out: the value is written, but the next [getItem] answers
    null and removes it. *)
Theorem setItem_keeps_stale_record (now now' : Z) (key value : string)
  (expiration : option Z) (s : store) :
  (forall e, expiration = Some e -> e = 0%Z) ->
  expired_in now' s key = true ->
  let s1 := snd (setItem now key value expiration s) in
  st_get s1 key = Some value /\
  fst (getItem now' key s1) = inr None /\
  st_get (snd (getItem now' key s1)) key = None.
Proof.
  intros Hf Hx s1.
  assert (Hrec : st_get s1 (expiration_key_prefix ++ key) = st_get s (expiration_key_prefix ++ key)).
  { unfold s1. rewrite setItem_eq. cbn [snd].
    destruct expiration as [e|].
    - rewrite (Hf e eq_refl). simpl (0 =? 0)%Z. cbv iota.
      apply st_get_set_ne, record_neq_key.
    - apply st_get_set_ne, record_neq_key. }
  assert (Hx1 : expired_in now' s1 key = true) by (rewrite (expired_in_record now' s1 s key Hrec); exact Hx).
  split; [apply setItem_value|].
  rewrite getItem_eq, Hx1. cbn [fst snd]. split; [reflexivity|].
  rewrite st_get_remove_ne by apply key_neq_record. apply st_get_remove_eq.
Qed.

(** [updateExpiration(key, e)] with an integer [e] at time [now] (with
    [now + e] not 0) sets the deadline [now + e]: at any time [now'] the
    time left is [now + e - now'] and the item is expired exactly from
    [now + e] on; nothing but the expiry record changes, and the value
    need not exist.  All the numbers involved are integers a double holds
    exactly. *)
Theorem updateExpiration_deadline (now now' e : Z) (key : string) (s : store) :
  safe_int now = true -> safe_int e = true -> safe_int (now + e) = true ->
  safe_int now' = true -> safe_int (now + e - now') = true ->
  (now + e <> 0)%Z ->
  let s1 := snd (updateExpiration now key e s) in
  timeLeft_in now' s1 key = Some (now + e - now')%Z /\
  expired_in now' s1 key = (now + e <=? now')%Z /\
  (forall k, k <> expiration_key_prefix ++ key -> st_get s1 k = st_get s k).
Proof.
  intros _ _ _ _ _ Hz s1.
  assert (Ht : timeLeft_in now' s1 key = Some (now + e - now')%Z).
  { unfold s1, updateExpiration, raw_set. rewrite timeLeft_in_eq. cbn [snd].
    rewrite st_get_set_eq, parseInt_number_to_string.
    replace (now + e =? 0)%Z with false by (symmetry; apply Z.eqb_neq; exact Hz).
    reflexivity. }
  split; [exact Ht|]. split.
  - rewrite isExpired_timeLeft, Ht. simpl.
    destruct (Z.leb_spec (now + e - now') 0), (Z.leb_spec (now + e) now'); lia.
  - intros k Hk. unfold s1, updateExpiration, raw_set. cbn [snd]. apply st_get_set_ne, Hk.
Qed.

(** With a truthy TTL [e] such that [now + e] is 0, [setItem] writes the
    record "0", which [getTimeLeft] reads as no expiry: the item then
    never expires and [getItem] returns it at every time. *)
Theorem zero_deadline_never_expires (now e : Z) (key value : string) (s : store) :
  (e <> 0)%Z -> (now + e = 0)%Z ->
  let s1 := snd (setItem now key value (Some e) s) in
  st_get s1 (expiration_key_prefix ++ key) = Some "0" /\
  (forall now', timeLeft_in now' s1 key = None /\ getItem now' key s1 = (inr (Some value), s1)).
Proof.
  intros He Hz s1.
  assert (Hr : st_get s1 (expiration_key_prefix ++ key) = Some "0").
  { unfold s1. rewrite setItem_eq.
    replace (e =? 0)%Z with false by (symmetry; apply Z.eqb_neq; exact He).
    cbn [snd]. rewrite st_get_set_eq, Hz. reflexivity. }
  split; [exact Hr|]. intro now'.
  assert (Ht : timeLeft_in now' s1 key = None) by (rewrite timeLeft_in_eq, Hr; reflexivity).
  split; [exact Ht|].
  rewrite getItem_eq, isExpired_timeLeft, Ht. unfold s1. rewrite setItem_value. reflexivity.
Qed.

(** The time left drops by exactly the time elapsed, so an item that is
    expired at some time stays expired at every later time. *)
Theorem expiry_monotone (now now' : Z) (s : store) (key : string) :
  timeLeft_in now' s key = option_map (fun t => (t - (now' - now))%Z) (timeLeft_in now s key) /\
  ((now <= now')%Z -> expired_in now s key = true -> expired_in now' s key = true).
Proof.
  assert (Ht : timeLeft_in now' s key =
               option_map (fun t => (t - (now' - now))%Z) (timeLeft_in now s key)).
  { rewrite !timeLeft_in_eq.
    destruct (parseInt _) as [t|]; [|reflexivity].
    destruct (t =? 0)%Z; [reflexivity|]. simpl. f_equal. lia. }
  split; [exact Ht|]. intros Hle.
  rewrite !isExpired_timeLeft, Ht.
  destruct (timeLeft_in now s key) as [t|]; simpl; [|discriminate].
  intro H. apply Z.leb_le in H. apply Z.leb_le. lia.
Qed.

(** [getJson] on a live entry whose text cannot start a JSON value (it
    is empty or white space, or starts with another character, as the
    text "undefined" a raw [setItem] can leave does) raises the
    SyntaxError of [JSON.parse] and leaves the store as it was. *)
Theorem getJson_syntax_error (now : Z) (key text : string) (s : store) :
  expired_in now s key = false -> st_get s key = Some text -> json_bad_start text = true ->
  getJson now key s = (inl SyntaxError, s).
Proof.
  intros Hx Hg Hb. unfold getJson, bind. rewrite getItem_eq, Hx, Hg. cbv beta iota.
  rewrite (json_bad_start_rejected text Hb). reflexivity.
Qed.

(** [getJson] changes the store exactly as [getItem] does, whether it
    answers, answers null or raises; for an expired entry it answers null,
    and afterwards neither the value nor the expiry record is there while
    every other entry is unchanged. *)
Theorem getJson_effect_is_getItem (now : Z) (key : string) (s : store) :
  snd (getJson now key s) = snd (getItem now key s) /\
  (expired_in now s key = true ->
   let s' := snd (getJson now key s) in
   fst (getJson now key s) = inr JNull /\
   st_get s' key = None /\
   st_get s' (expiration_key_prefix ++ key) = None /\
   (forall k, k <> key -> k <> expiration_key_prefix ++ key -> st_get s' k = st_get s k)).
Proof.
  assert (Hs : snd (getJson now key s) = snd (getItem now key s)).
  { unfold getJson, bind.
    destruct (getItem now key s) as [[e | [t |]] s1]; cbn [fst snd]; [reflexivity| |reflexivity].
    destruct (json_parse t); reflexivity. }
  split; [exact Hs|]. intros Hx s'.
  assert (Hg : getItem now key s =
               (inr None, st_remove (st_remove s key) (expiration_key_prefix ++ key))).
  { rewrite getItem_eq, Hx. reflexivity. }
  assert (Hs' : s' = st_remove (st_remove s key) (expiration_key_prefix ++ key)).
  { unfold s'. rewrite Hs, Hg. reflexivity. }
  split; [unfold getJson, bind; rewrite Hg; reflexivity|].
  rewrite Hs'. split; [|split].
  - rewrite st_get_remove_ne by apply key_neq_record. apply st_get_remove_eq.
  - apply st_get_remove_eq.
  - intros k H1 H2. rewrite st_get_remove_ne by exact H2.
    apply st_get_remove_ne. exact H1.
Qed.

(** [keys(false)] is [keys(true)] with the expired keys left out, in the
    same order. *)
Theorem keys_unexpired_subset (now : Z) (s : store) :
  keys_in now false s = filter (fun k => negb (expired_in now s k)) (keys_in now true s).
Proof.
  rewrite !keys_in_eq, filter_and. apply filter_ext. intro k.
  destruct (starts_with expiration_key_prefix k), (expired_in now s k); reflexivity.
Qed.

(** On a store keeping the key namespace invariant, a second
    [clearExpired()] at the same time finds nothing to remove and changes
    nothing. *)
Theorem clearExpired_idempotent (now : Z) (s : store) :
  wf_store s ->
  let s' := snd (clearExpired now s) in
  clearExpired now s' = (inr [], s').
Proof.
  intros Hwf s'. unfold s'. rewrite (clearExpired_run now s Hwf). cbn [snd].
  pose proof (wf_remove_all (expired_keys now s) s Hwf) as Hwf'.
  rewrite (clearExpired_run now _ Hwf').
  assert (E : expired_keys now (remove_all (expired_keys now s) s) = []).
  { unfold expired_keys at 1. rewrite filter_all_false; [reflexivity|].
    intro x. rewrite sweep_nothing_expired by exact Hwf. apply andb_false_r. }
  rewrite E. reflexivity.
Qed.

(** On a store keeping the key namespace invariant, [clearExpired()] does
    not change what [keys(false)] lists at the same time: it only removes
    entries that [keys(false)] leaves out anyway. *)
Theorem clearExpired_keeps_live_keys (now : Z) (s : store) :
  wf_store s ->
  keys_in now false (snd (clearExpired now s)) = keys_in now false s.
Proof.
  intro Hwf. rewrite (clearExpired_run now s Hwf). cbn [snd].
  rewrite !keys_in_eq, st_keys_remove_all, filter_and. apply filter_ext. intro x.
  cbv beta. rewrite sweep_nothing_expired by exact Hwf.
  destruct (starts_with expiration_key_prefix x) eqn:Hp;
    [rewrite andb_false_r; reflexivity|].
  destruct (in_dec string_dec x (expired_keys now s)) as [Hin|Hnin].
  - rewrite removed_by_true by exact Hin.
    apply expired_keys_iff in Hin. rewrite Hin. reflexivity.
  - rewrite removed_by_false.
    + destruct (expired_in now s x) eqn:E; [|reflexivity].
      exfalso. apply Hnin, expired_keys_iff, E.
    + intros e He. split.
      * intro; subst; contradiction.
      * intro Heq. rewrite Heq, starts_with_record in Hp. discriminate.
Qed.

(** The key namespace invariant is kept by [setItem] of a key that does
    not start with the expiry prefix, by [removeItem] and by
    [clearExpired]. *)
Theorem wf_store_preserved :
  (forall now key value expiration s, wf_store s ->
     starts_with expiration_key_prefix key = false ->
     wf_store (snd (setItem now key value expiration s))) /\
  (forall key s, wf_store s -> wf_store (snd (removeItem key s))) /\
  (forall now s, wf_store s -> wf_store (snd (clearExpired now s))).
Proof.
  split; [|split].
  - intros now key value expiration s Hwf Hk.
    assert (W1 : wf_store (st_set s key value))
      by (apply wf_set; [exact Hwf | rewrite Hk; discriminate]).
    rewrite setItem_eq. cbn [snd].
    destruct expiration as [e|]; [destruct (e =? 0)%Z|]; try exact W1.
    apply wf_set; [exact W1|]. intros _. rewrite strip_record. exact Hk.
  - intros key s Hwf. rewrite removeItem_eq. cbn [snd]. apply wf_remove, wf_remove, Hwf.
  - intros now s Hwf. rewrite (clearExpired_run now s Hwf). apply wf_remove_all, Hwf.
Qed.

(** [getItem] and [peek] agree: when [peek] reports the item not expired,
    [getItem] returns [peek]'s value; when it reports it expired,
    [getItem] answers null. *)
Theorem getItem_vs_peek (now : Z) (key : string) (s : store) :
  match fst (peek now key s) with
  | inr p => fst (getItem now key s) = inr (if pk_isExpired p then None else pk_value p)
  | inl _ => False
  end.
Proof.
  assert (Hp : fst (peek now key s) =
               inr {| pk_value := st_get s key; pk_timeLeft := timeLeft_in now s key;
                      pk_isExpired := expired_of (timeLeft_in now s key) |}).
  { unfold peek, bind, raw_get, ret. cbn [fst]. rewrite getTimeLeft_eq, timeLeft_in_eq. reflexivity. }
  rewrite Hp. cbn [pk_isExpired pk_value]. rewrite <- isExpired_timeLeft, getItem_eq.
  destruct (expired_in now s key); reflexivity.
Qed.

(** After [setItem(key, ...)] the key is listed by [keys(true)] (the key
    does not start with the expiry prefix); after [removeItem(key)] it
    is not. *)
Theorem keys_after_set_remove (now now' : Z) (key value : string)
  (expiration : option Z) (s : store) :
  starts_with expiration_key_prefix key = false ->
  In key (keys_in now' true (snd (setItem now key value expiration s))) /\
  ~ In key (keys_in now' true (snd (removeItem key s))).
Proof.
  intro Hk. split.
  - rewrite keys_in_eq. apply filter_In. split; [|rewrite Hk; reflexivity].
    eapply st_get_in, setItem_value.
  - rewrite keys_in_eq. intro H. apply filter_In in H as [H _].
    rewrite removeItem_eq in H. cbn [snd] in H.
    rewrite !st_keys_remove in H. apply filter_In in H as [H _].
    apply filter_In in H as [_ H]. rewrite String.eqb_refl in H. discriminate.
Qed.

End ExpiredStorage.

(* ------------------------------------------------------------------ *)
(** * Concrete runs *)

(** A backing store whose [setItem] and [removeItem] answer [undefined]. *)
Definition r0 : store -> string -> string -> unit := fun _ _ _ => tt.
Definition m0 : store -> string -> unit := fun _ _ => tt.

(** The four items of the [clearExpired] scenario, set at time 0. *)
Definition scen : store :=
  snd ((setItem r0 0 "a" "1" (Some 10%Z) ;;;
        setItem r0 0 "b" "2" (Some 15%Z) ;;;
        setItem r0 0 "c" "3" (Some 25%Z) ;;;
        setItem r0 0 "d" "4" None) []).

(** A JSON value with an array, a string, a number and an object. *)
Definition sample_json : jsval :=
  JArray [JNumber 1; JString "a"; JObject [("b", JNull); ("c", JNumber (-7))]].

Lemma getTimeLeft_record_decoding_witness :
  let s1 := snd (setItem r0 3 "k" "v" (Some 7%Z) []) in
  timeLeft_in 10 s1 "k" = Some 0%Z /\
  expired_in 10 s1 "k" = true /\
  timeLeft_in 15 s1 "k" = Some (-5)%Z.
Proof.
  exact (proj2 (getTimeLeft_record_decoding r0 0 [] "k") 3%Z 7%Z "k" "v" []
           ltac:(lia) ltac:(lia)).
Defined.

(** A record holding "0" parses to the number 0, yet [getTimeLeft]
    answers null: [setItem] at time 5 with TTL -5 writes it. *)
Lemma getTimeLeft_zero_record_cex :
  let s1 := snd (setItem r0 5 "k" "v" (Some (-5)%Z) []) in
  st_get s1 (expiration_key_prefix ++ "k") = Some "0" /\
  parseInt "0" = Some 0%Z /\
  getTimeLeft 5 "k" s1 = (inr None, s1).
Proof. split; [reflexivity | split; reflexivity]. Qed.

Lemma no_record_never_expires_witness :
  getTimeLeft 7 "k" [("k", "v")] = (inr None, [("k", "v")]) /\
  isExpired 7 "k" [("k", "v")] = (inr false, [("k", "v")]).
Proof. exact (proj1 (no_record_never_expires 7 [("k", "v")] "k") eq_refl). Defined.

Lemma setItem_frame_witness :
  st_get (snd (setItem r0 0 "k" "v" (Some 5%Z) [("x", "1")])) "x" = Some "1".
Proof.
  pose proof (setItem_frame r0 0 [("x", "1")] "k" "v" (Some 5%Z)) as G.
  destruct (setItem r0 0 "k" "v" (Some 5%Z) [("x", "1")]) as [r s'].
  destruct G as (_ & _ & G & _). simpl. apply G.
  - apply String.eqb_neq. reflexivity.
  - apply String.eqb_neq. reflexivity.
Defined.

Lemma keys_filter_no_eviction_witness :
  starts_with expiration_key_prefix "c" = false.
Proof.
  pose proof (keys_filter_no_eviction 19 true scen) as G.
  destruct G as [_ G]. apply (G "c"). vm_compute. right. right. left. reflexivity.
Defined.

Lemma clearExpired_sweep_witness :
  wf_store scen /\ fst (clearExpired m0 19 scen) = inr (expired_keys 19 scen).
Proof.
  assert (Hw : wf_store scen).
  { split.
    - vm_compute. repeat constructor; simpl; intuition discriminate.
    - intros k Hin Hp. vm_compute in Hin.
      repeat destruct Hin as [<- | Hin]; try contradiction; vm_compute in Hp |- *;
        congruence. }
  split; [exact Hw|].
  pose proof (proj1 (clearExpired_sweep r0 m0) 19%Z scen Hw) as G.
  destruct (clearExpired m0 19 scen) as [r s']. simpl. exact (proj1 G).
Defined.

Lemma setJson_undefined_rejected_witness :
  fst (setJson r0 0 "k" JNull None []) = inr (r0 [] "k" (ser JNull)).
Proof.
  apply (proj1 (proj2 (setJson_undefined_rejected r0 m0
                         0 "k" None []))).
  discriminate.
Defined.

Lemma getJson_after_setJson_witness :
  getJson m0 5 "k" (snd (setJson r0 0 "k" sample_json (Some 10%Z) [])) =
  (inr sample_json, snd (setJson r0 0 "k" sample_json (Some 10%Z) [])).
Proof.
  apply getJson_after_setJson.
  - vm_compute. repeat split; repeat constructor; simpl; intuition discriminate.
  - vm_compute. reflexivity.
Defined.

Lemma negative_ttl_expires_at_once_witness :
  let s1 := snd (setItem r0 10 "k" "v" (Some (-3)%Z) []) in
  fst (setItem r0 10 "k" "v" (Some (-3)%Z) []) = inr (r0 [] "k" "v") /\
  st_get s1 (expiration_key_prefix ++ "k") = Some (js_number_to_string (10 + -3)) /\
  timeLeft_in 10 s1 "k" = Some (-3)%Z /\
  expired_in 10 s1 "k" = true /\
  fst (getItem m0 10 "k" s1) = inr None.
Proof.
  exact (negative_ttl_expires_at_once r0 m0 10 (-3) "k" "v" []
           eq_refl eq_refl eq_refl ltac:(lia) ltac:(lia)).
Defined.

(** A negative TTL with a fractional part, [-0.5] at time 0: the record
    is "-0.5", [parseInt] reads it as 0, so [getTimeLeft] answers null,
    the item is not expired and [getItem] returns its value, now and at
    any later time. *)
Lemma negative_ttl_expires_at_once_cex :
  let s1 := snd (setItem_num r0 0 "k" "v" (Some (mk_num (-5) 1)) []) in
  (num_m (mk_num (-5) 1) < 0)%Z /\
  (num_m (num_add (num_of_Z 0) (mk_num (-5) 1)) <> 0)%Z /\
  st_get s1 (expiration_key_prefix ++ "k") = Some "-0.5" /\
  parseInt "-0.5" = Some 0%Z /\
  (forall now, (0 <= now)%Z ->
     timeLeft_in now s1 "k" = None /\ expired_in now s1 "k" = false /\
     getItem m0 now "k" s1 = (inr (Some "v"), s1)).
Proof.
  split; [reflexivity|]. split; [discriminate|].
  split; [reflexivity|]. split; [reflexivity|].
  intros now _.
  assert (Ht : timeLeft_in now (snd (setItem_num r0 0 "k" "v" (Some (mk_num (-5) 1)) [])) "k" = None).
  { rewrite timeLeft_in_eq. reflexivity. }
  split; [exact Ht|].
  assert (Hx : expired_in now (snd (setItem_num r0 0 "k" "v" (Some (mk_num (-5) 1)) [])) "k" = false).
  { rewrite isExpired_timeLeft, Ht. reflexivity. }
  split; [exact Hx|].
  rewrite getItem_eq, Hx. reflexivity.
Qed.

(** The key namespace invariant on a concrete store. *)
Ltac wf_concrete :=
  split;
  [ vm_compute; repeat constructor; simpl; intuition discriminate
  | let k := fresh "k" in
    let Hin := fresh "Hin" in
    let Hp := fresh "Hp" in
    intros k Hin Hp; vm_compute in Hin;
    repeat destruct Hin as [<- | Hin]; try contradiction; vm_compute in Hp |- *;
    congruence ].

(** An item set at time 0 with TTL 5. *)
Definition old_item : store := snd (setItem r0 0 "k" "old" (Some 5%Z) []).

Lemma removeItem_frame_witness :
  st_get (snd (removeItem m0 "k" [("k", "v"); ("x", "1")])) "x" = Some "1".
Proof.
  destruct (removeItem_frame m0 "k" [("k", "v"); ("x", "1")]) as (_ & _ & _ & G).
  apply G; apply String.eqb_neq; reflexivity.
Defined.

Lemma removeItem_idempotent_witness :
  snd (removeItem m0 "k" [("x", "1")]) = [("x", "1")].
Proof.
  apply (proj2 (removeItem_idempotent m0 "k" [("x", "1")]));
    vm_compute; intros [H | []]; discriminate.
Defined.

Lemma getItem_before_deadline_witness :
  let s1 := snd (setItem r0 10 "k" "v" (Some 5%Z) []) in
  getItem m0 12 "k" s1 = (inr (Some "v"), s1).
Proof.
  exact (getItem_before_deadline r0 m0 10 12 5 "k" "v" []
           eq_refl eq_refl eq_refl ltac:(lia) ltac:(lia)).
Defined.

Lemma setItem_keeps_stale_record_witness :
  let s1 := snd (setItem r0 7 "k" "new" None old_item) in
  st_get s1 "k" = Some "new" /\
  fst (getItem m0 7 "k" s1) = inr None /\
  st_get (snd (getItem m0 7 "k" s1)) "k" = None.
Proof.
  exact (setItem_keeps_stale_record r0 m0 7 7 "k" "new" None old_item
           ltac:(intros e H; discriminate) ltac:(vm_compute; reflexivity)).
Defined.

Lemma updateExpiration_deadline_witness :
  let s1 := snd (updateExpiration r0 10 "k" 5 []) in
  timeLeft_in 20 s1 "k" = Some (10 + 5 - 20)%Z /\
  expired_in 20 s1 "k" = (10 + 5 <=? 20)%Z /\
  (forall k, k <> expiration_key_prefix ++ "k" -> st_get s1 k = st_get [] k).
Proof.
  exact (updateExpiration_deadline r0 10 20 5 "k" []
           eq_refl eq_refl eq_refl eq_refl eq_refl ltac:(lia)).
Defined.

Lemma zero_deadline_never_expires_witness :
  let s1 := snd (setItem r0 3 "k" "v" (Some (-3)%Z) []) in
  st_get s1 (expiration_key_prefix ++ "k") = Some "0" /\
  (forall now', timeLeft_in now' s1 "k" = None /\ getItem m0 now' "k" s1 = (inr (Some "v"), s1)).
Proof. exact (zero_deadline_never_expires r0 m0 3 (-3) "k" "v" [] ltac:(lia) ltac:(lia)). Defined.

Lemma expiry_monotone_witness : expired_in 20 old_item "k" = true.
Proof.
  apply (proj2 (expiry_monotone 15 20 old_item "k")); [lia | vm_compute; reflexivity].
Defined.

Lemma getJson_syntax_error_witness :
  getJson m0 0 "k" [("k", "undefined")] = (inl SyntaxError, [("k", "undefined")]).
Proof.
  apply (getJson_syntax_error m0 0 "k" "undefined"); vm_compute; reflexivity.
Defined.

Lemma getJson_effect_is_getItem_witness :
  fst (getJson m0 7 "k" old_item) = inr JNull /\
  st_get (snd (getJson m0 7 "k" old_item)) "k" = None.
Proof.
  destruct (proj2 (getJson_effect_is_getItem m0 7 "k" old_item)
              ltac:(vm_compute; reflexivity)) as (G1 & G2 & _).
  split; [exact G1 | exact G2].
Defined.

Lemma clearExpired_idempotent_witness :
  let s' := snd (clearExpired m0 19 scen) in
  clearExpired m0 19 s' = (inr [], s').
Proof. exact (clearExpired_idempotent m0 19 scen ltac:(wf_concrete)). Defined.

Lemma clearExpired_keeps_live_keys_witness :
  keys_in 19 false (snd (clearExpired m0 19 scen)) = keys_in 19 false scen.
Proof. exact (clearExpired_keeps_live_keys m0 19 scen ltac:(wf_concrete)). Defined.

Lemma wf_store_preserved_witness : wf_store (snd (setItem r0 0 "e" "5" None scen)).
Proof.
  apply (proj1 (wf_store_preserved r0 m0) 0%Z "e" "5" None scen);
    [wf_concrete | reflexivity].
Defined.

Lemma keys_after_set_remove_witness :
  In "k" (keys_in 0 true (snd (setItem r0 0 "k" "v" None []))) /\
  ~ In "k" (keys_in 0 true (snd (removeItem m0 "k" []))).
Proof. exact (keys_after_set_remove r0 m0 0 0 "k" "v" None [] eq_refl). Defined.
